(** * monitor.py: the Telegram <-> MQTT bridge

    A shallow embedding of [src/monitor.py]: the two broker callbacks
    ([on_connect], [on_message]) and the chat handler
    ([handle_telegram_message]), together with the parts of the Python
    run time they rely on ([str.strip], [str.lower], [str()] and the [re]
    engine on the constructs that [IMAGE_URL_PATTERN] uses). *)

From Stdlib Require Import List ZArith NArith Lia Bool String Ascii.
From Stdlib Require Import DecimalString DecimalPos DecimalZ.
Import ListNotations.

Set Implicit Arguments.

(** ** Python strings

    A Python [str] is a sequence of Unicode code points. *)

Definition char := N.
Definition str := list char.
Definition bytes := list N.

(** A string literal of the source (all of them are ASCII, apart from the
    escape [\n], written [nl] below). *)
Definition lit (s : string) : str :=
  List.map N_of_ascii (list_ascii_of_string s).

Definition nl : char := 10%N.

Fixpoint str_eqb (a b : str) : bool :=
  match a, b with
  | [], [] => true
  | x :: a', y :: b' => N.eqb x y && str_eqb a' b'
  | _, _ => false
  end.

Local Open Scope N_scope.

(** [str.isspace] on one code point: the white space of the Unicode
    character database that [str.strip()] removes. *)
Definition isspace (c : char) : bool :=
  ((9 <=? c) && (c <=? 13)) || ((28 <=? c) && (c <=? 32))
  || (c =? 0x85) || (c =? 0xa0) || (c =? 0x1680)
  || ((0x2000 <=? c) && (c <=? 0x200a))
  || (c =? 0x2028) || (c =? 0x2029) || (c =? 0x202f)
  || (c =? 0x205f) || (c =? 0x3000).

Fixpoint lstrip (s : str) : str :=
  match s with
  | c :: s' => if isspace c then lstrip s' else s
  | [] => []
  end.

Definition rstrip (s : str) : str := rev (lstrip (rev s)).

(** [s.strip()] *)
Definition strip (s : str) : str := rstrip (lstrip s).

(** [str.lower()] on one code point.  Exact on ASCII and on U+0130 and
    U+0131, which are the only code points that can occur in group 1 of a
    match of [IMAGE_URL_PATTERN] (lemma [extension_chars] below);
    [lower] is applied to nothing else. *)
Definition lower_char (c : char) : str :=
  if (65 <=? c) && (c <=? 90) then [c + 32]
  else if c =? 0x130 then [0x69; 0x307]
  else [c].

Definition lower (s : str) : str := flat_map lower_char s.

Local Close Scope N_scope.

(** Values that reach the builtin [str()]: [None] and strings (what
    [os.getenv] returns) and integers (a Telegram chat id). *)
Inductive value :=
| VNone
| VStr (s : str)
| VInt (z : Z).

Definition of_getenv (v : option str) : value :=
  match v with Some s => VStr s | None => VNone end.

(** [str(n)] for an integer: its decimal numeral, with a minus sign when
    negative. *)
Definition str_of_int (z : Z) : str :=
  lit (NilZero.string_of_int (Z.to_int z)).

(** The builtin [str()]. *)
Definition py_str (v : value) : str :=
  match v with
  | VNone => lit "None"
  | VStr s => s
  | VInt z => str_of_int z
  end.

(** ** The [re] engine

    The constructs that [IMAGE_URL_PATTERN] is built from, and a
    backtracking matcher for them with the priorities of [re]: greedy
    repetition and option, alternatives from left to right. *)

Module Re.

Inductive regex :=
| Str (w : str)                (* a run of literal characters *)
| DotStar                      (* .*  (greedy; [.] is anything but a newline) *)
| Cat (r1 r2 : regex)
| Or (r1 r2 : regex)           (* r1|r2 *)
| Maybe (r : regex)            (* r?  (greedy) *)
| Group (n : nat) (r : regex)  (* capture group number n *)
| Caret                        (* ^ *)
| Dollar.                      (* $ *)

(** The simple lower-case mapping [re] applies to the subject under
    [re.IGNORECASE], on the code points that it sends to an ASCII letter;
    the others cannot be sent onto a literal of the pattern and are left
    alone. *)
Definition unicode_tolower (c : char) : char :=
  if ((65 <=? c) && (c <=? 90))%N then (c + 32)%N
  else if (c =? 0x130)%N then 0x69%N
  else if (c =? 0x212a)%N then 0x6b%N
  else c.

(** Does the subject character [c] match the pattern literal [l]?  With
    [re.IGNORECASE] a literal also matches the characters that lower to
    it, and the engine adds the two case "equivalences" that involve
    ASCII: U+017F for [s] and U+0131 for [i]. *)
Definition literal_match (ignorecase : bool) (l c : char) : bool :=
  if ignorecase then
    (unicode_tolower c =? l)%N
    || ((l =? 0x73)%N && (c =? 0x17f)%N)
    || ((l =? 0x69)%N && (c =? 0x131)%N)
  else (c =? l)%N.

Definition dot_match (c : char) : bool := negb (c =? nl)%N.

(** The captures of a match: group number and captured text. *)
Definition captures := list (nat * str).

Definition group (m : captures) (n : nat) : option str :=
  option_map snd (find (fun e => Nat.eqb (fst e) n) m).

Section Matcher.

Variable ignorecase : bool.

(** After a literal run [w], what is left of the subject. *)
Fixpoint eat (w s : str) : option str :=
  match w, s with
  | [], _ => Some s
  | l :: w', c :: s' => if literal_match ignorecase l c then eat w' s' else None
  | _ :: _, [] => None
  end.

(** Greedy [.*]: take as many characters as possible, and give them back
    one at a time while the rest of the pattern ([k]) fails. *)
Fixpoint dotstar (pos : nat) (s : str)
    (k : nat -> str -> option captures) : option captures :=
  match s with
  | c :: s' =>
      if dot_match c then
        match dotstar (S pos) s' k with
        | Some m => Some m
        | None => k pos s
        end
      else k pos s
  | [] => k pos s
  end.

(** [exec r pos s k]: match [r] at offset [pos], where [s] is the subject
    from [pos] on; [k] is the rest of the pattern.  The result is the
    first success in backtracking order. *)
Fixpoint exec (r : regex) (pos : nat) (s : str)
    (k : nat -> str -> option captures) : option captures :=
  match r with
  | Str w =>
      match eat w s with
      | Some s' => k (pos + List.length w) s'
      | None => None
      end
  | DotStar => dotstar pos s k
  | Cat r1 r2 => exec r1 pos s (fun pos' s' => exec r2 pos' s' k)
  | Or r1 r2 =>
      match exec r1 pos s k with
      | Some m => Some m
      | None => exec r2 pos s k
      end
  | Maybe r1 =>
      match exec r1 pos s k with
      | Some m => Some m
      | None => k pos s
      end
  | Group n r1 =>
      exec r1 pos s (fun pos' s' =>
        option_map (cons (n, firstn (pos' - pos) s)) (k pos' s'))
  | Caret => if Nat.eqb pos 0 then k pos s else None
  | Dollar =>
      match s with
      | [] => k pos s
      | [c] => if (c =? nl)%N then k pos s else None
      | _ => None
      end
  end.

End Matcher.

(** [pattern.match(s)]: a match anchored at the start of [s] (not
    necessarily reaching its end). *)
Definition re_match (ignorecase : bool) (r : regex) (s : str) : option captures :=
  exec ignorecase r 0 s (fun _ _ => Some []).

(** Concatenation of several pieces. *)
Fixpoint seq (rs : list regex) : regex :=
  match rs with
  | [] => Str []
  | [r] => r
  | r :: rs' => Cat r (seq rs')
  end.

End Re.

Import Re.

(** The pattern of [re.compile] at line 65: caret, [http], an optional
    [s], [://], a greedy run of any characters, a dot, group 1 (one of
    the five extensions, in the order of the source), an optional group 2
    (a question mark and a greedy run of any characters), dollar. *)
Definition IMAGE_URL_REGEX : regex :=
  seq [ Caret; Str (lit "http"); Maybe (Str (lit "s")); Str (lit "://");
        DotStar; Str (lit ".");
        Group 1 (Or (Str (lit "jpg")) (Or (Str (lit "jpeg")) (Or (Str (lit "png"))
                (Or (Str (lit "gif")) (Str (lit "webp"))))));
        Maybe (Group 2 (Cat (Str (lit "?")) DotStar));
        Dollar ].

(** The same pattern in three parts: up to the path, the path, and from
    the dot on (lemma [IMAGE_URL_REGEX_parts]). *)
Definition URL_HEAD : regex :=
  seq [ Caret; Str (lit "http"); Maybe (Str (lit "s")); Str (lit "://") ].

Definition URL_TAIL : regex :=
  seq [ Str (lit ".");
        Group 1 (Or (Str (lit "jpg")) (Or (Str (lit "jpeg")) (Or (Str (lit "png"))
                (Or (Str (lit "gif")) (Str (lit "webp"))))));
        Maybe (Group 2 (Cat (Str (lit "?")) DotStar));
        Dollar ].

(** [IMAGE_URL_PATTERN.match], the pattern being compiled with
    [re.IGNORECASE]. *)
Definition IMAGE_URL_PATTERN_match (s : str) : option captures :=
  re_match true IMAGE_URL_REGEX s.

(** ** Classification

    [on_message] decides between media and text inline; [classify] is
    that decision on its own (lines 86, 90 to 93 and 104): strip, match,
    lower-case group 1, compare with [gif].  Lemma [on_message_classify]
    relates the two. *)

Inductive media_kind := image | animation.

Inductive ClassifiedPayload :=
| TextPayload (text : str)
| MediaPayload (url : str) (kind : media_kind).

Definition kind_of_ext (ext : str) : media_kind :=
  if str_eqb ext (lit "gif") then animation else image.

(** Group 1 takes part in every match of the pattern (lemma
    [match_group1]), so the last case does not arise. *)
Definition classify (s : str) : ClassifiedPayload :=
  let payload := strip s in
  match IMAGE_URL_PATTERN_match payload with
  | Some m =>
      match group m 1 with
      | Some g => MediaPayload payload (kind_of_ext (lower g))
      | None => MediaPayload payload image
      end
  | None => TextPayload payload
  end.

(** ** The outside world and the effects of the handlers

    The handlers act on the world through the HTTP client, the chat
    client and the broker client.  Every such call, and every log record,
    is an [event]; a handler is run against the history of the events so
    far and yields the events it adds. *)

Inductive level := INFO | WARNING | ERROR.

(** [msg] of [on_message]: the topic, and the payload already decoded by
    [msg.payload.decode(errors="ignore")]. *)
Record MQTTMessage := { topic : str; payload_decoded : str }.

(** [message] of [handle_telegram_message]: [message.chat.id] and
    [message.text]. *)
Record Message := { chat_id : Z; text : str }.

(** The [rc] that the broker client passes to [on_connect] (callback API
    version 2): it compares with integers by its value and prints as its
    name. *)
Record ReasonCode := { rc_value : Z; rc_name : str }.

(** What [requests.get] returns: the status, and the body ([None] when
    reading [response.content] raises). *)
Record Response := { status_code : Z; content : option bytes }.

Inductive event :=
| requests_get (url : str) (timeout : Z) (stream : bool)
| send_animation (chat : value) (name : str) (data : bytes) (caption : str)
| send_photo (chat : value) (name : str) (data : bytes) (caption : str)
| send_message (chat : value) (text : str) (parse_mode : str)
| reply_to (message : Message) (text : str)
| subscribe (topic : str)
| publish (topic : str) (payload : str)
| log (lv : level) (text : str).

(** How the world answers, given the history: the HTTP client returns a
    response or raises ([None]); a call of the chat client returns or
    raises ([false]); so does a call of the broker client ([mqtt_ok]):
    it reports a failed transmission through the result of the call (no
    connection, queue full), [publish_rc] for [publish], and it raises
    [ValueError] on a topic it does not accept, such as an empty one or,
    for [publish], one with a wildcard. *)
Record World := {
  http_get : list event -> str -> option Response;
  telegram_ok : list event -> event -> bool;
  publish_rc : list event -> str -> str -> Z;
  mqtt_ok : list event -> event -> bool
}.

Inductive outcome (A : Type) :=
| Ret (a : A)
| Raise.
Arguments Raise {A}.

Module Eff.

(** A computation: from the history to an outcome and the events added. *)
Definition M (A : Type) : Type := list event -> outcome A * list event.

Definition ret {A} (a : A) : M A := fun _ => (Ret a, []).

Definition raise {A} : M A := fun _ => (Raise, []).

Definition bind {A B} (m : M A) (f : A -> M B) : M B :=
  fun h =>
    match m h with
    | (Ret a, e1) => let (o, e2) := f a (h ++ e1) in (o, e1 ++ e2)
    | (Raise, e1) => (Raise, e1)
    end.

(** [try: body except Exception: handler] *)
Definition try_except {A} (body handler : M A) : M A :=
  fun h =>
    match body h with
    | (Ret a, e1) => (Ret a, e1)
    | (Raise, e1) => let (o, e2) := handler (h ++ e1) in (o, e1 ++ e2)
    end.

(** A call that returns nothing and cannot raise. *)
Definition emit (e : event) : M unit := fun _ => (Ret tt, [e]).

Fixpoint for_each {A} (l : list A) (body : A -> M unit) : M unit :=
  match l with
  | [] => ret tt
  | x :: l' => bind (body x) (fun _ => for_each l' body)
  end.

End Eff.

Import Eff.

Declare Scope eff_scope.
Delimit Scope eff_scope with eff.
Notation "x <- m ;; k" := (bind m (fun x => k))
  (at level 61, m at next level, right associativity) : eff_scope.
Notation "m ;; k" := (bind m (fun _ => k))
  (at level 61, right associativity) : eff_scope.
Local Open Scope eff_scope.

Definition events {A} (r : outcome A * list event) : list event := snd r.
Definition result {A} (r : outcome A * list event) : outcome A := fst r.

(** [mqtt.MQTT_ERR_SUCCESS] *)
Definition MQTT_ERR_SUCCESS : Z := 0.

Section Bridge.

(** The constants read from the environment at import. *)
Variable CHAT_ID : option str.
Variable MQTT_BROKER : str.
Variable MQTT_PORT : Z.
Variable MQTT_TOPICS_OUTPUT : list str.
Variable MQTT_TOPIC_INPUT : str.

Variable world : World.

(** *** The clients *)

Definition logger (lv : level) (text : str) : M unit := emit (log lv text).

(** [requests.get(url, timeout=..., stream=...)] *)
Definition get (url : str) (timeout : Z) (stream : bool) : M Response :=
  fun h =>
    match http_get world h url with
    | Some r => (Ret r, [requests_get url timeout stream])
    | None => (Raise, [requests_get url timeout stream])
    end.

(** [response.raise_for_status()]: raises on the client and server error
    statuses, 400 to 599, and on no other. *)
Definition raise_for_status (response : Response) : M unit :=
  if (400 <=? status_code response)%Z && (status_code response <? 600)%Z
  then raise else ret tt.

(** [response.content] *)
Definition read_content (response : Response) : M bytes :=
  match content response with
  | Some b => ret b
  | None => raise
  end.

(** A call of the chat client: [bot.send_message], [bot.send_photo],
    [bot.send_animation], [bot.reply_to]. *)
Definition bot (call : event) : M unit :=
  fun h => (if telegram_ok world h call then Ret tt else Raise, [call]).

(** [client.subscribe(topic)]; its result is not looked at, and it may
    raise. *)
Definition client_subscribe (t : str) : M unit :=
  fun h => (if mqtt_ok world h (subscribe t) then Ret tt else Raise, [subscribe t]).

(** [mqtt_client.publish(topic, payload)], giving [result.rc] when it
    returns. *)
Definition mqtt_client_publish (t p : str) : M Z :=
  fun h =>
    (if mqtt_ok world h (publish t p) then Ret (publish_rc world h t p) else Raise,
     [publish t p]).

(** *** MQTT callbacks *)

Definition on_connect (rc : ReasonCode) : M unit :=
  if (rc_value rc =? 0)%Z then
    logger INFO (lit "Connected to MQTT broker: " ++ MQTT_BROKER ++ lit ":"
                 ++ str_of_int MQTT_PORT) ;;
    for_each MQTT_TOPICS_OUTPUT (fun topic =>
      let topic := strip topic in
      client_subscribe topic ;;
      logger INFO (lit "Subscribed to topic: " ++ topic))
  else
    logger ERROR (lit "MQTT connection failed (rc=" ++ rc_name rc ++ lit ")").

Definition on_message (msg : MQTTMessage) : M unit :=
  let payload := strip (payload_decoded msg) in
  logger INFO (lit "MQTT message received | topic=" ++ topic msg
               ++ lit " | payload=" ++ payload) ;;
  try_except
    (match IMAGE_URL_PATTERN_match payload with
     | Some m =>
         match group m 1 with
         | Some g =>
             let ext := lower g in
             let caption := lit "Topic: " ++ topic msg in
             logger INFO (lit "Downloading image (" ++ ext ++ lit ") from URL") ;;
             response <- get payload 15 true ;;
             raise_for_status response ;;
             photo_buffer <- read_content response ;;
             let name := lit "snapshot." ++ ext in
             if str_eqb ext (lit "gif") then
               bot (send_animation (of_getenv CHAT_ID) name photo_buffer caption) ;;
               logger INFO (lit "GIF sent to Telegram")
             else
               bot (send_photo (of_getenv CHAT_ID) name photo_buffer caption) ;;
               logger INFO (lit "Image sent to Telegram (" ++ name ++ lit ")")
         | None => raise
         end
     | None =>
         let message_text :=
           lit "Topic: " ++ topic msg ++ [nl] ++ lit "Message: " ++ payload in
         bot (send_message (of_getenv CHAT_ID) message_text (lit "Markdown")) ;;
         logger INFO (lit "Text message sent to Telegram")
     end)
    (logger ERROR (lit "Error while processing MQTT message")).

(** *** Telegram -> MQTT *)

Definition handle_telegram_message (message : Message) : M unit :=
  if negb (str_eqb (py_str (VInt (chat_id message))) (py_str (of_getenv CHAT_ID)))
  then
    logger WARNING (lit "Ignored message from unauthorized chat_id="
                    ++ str_of_int (chat_id message))
  else
    let payload := text message in
    rc <- mqtt_client_publish MQTT_TOPIC_INPUT payload ;;
    if (rc =? MQTT_ERR_SUCCESS)%Z then
      bot (reply_to message (lit "Sent to `" ++ MQTT_TOPIC_INPUT ++ lit "`")) ;;
      logger INFO (lit "Telegram message published to MQTT | topic="
                   ++ MQTT_TOPIC_INPUT)
    else
      bot (reply_to message (lit "ERROR - Publishing to MQTT failed")) ;;
      logger ERROR (lit "Failed to publish Telegram message to MQTT").

(** The broker loop hands the inbound messages to [on_message] one after
    the other; an exception that escapes the callback ends the loop. *)
Definition broker_loop (msgs : list MQTTMessage) : M unit :=
  for_each msgs on_message.

End Bridge.

(** A fetch fails when [requests.get] raises (connection error, timeout),
    when [raise_for_status] raises, or when the body cannot be read. *)
Definition fetch_fails (r : option Response) : bool :=
  match r with
  | None => true
  | Some resp =>
      ((400 <=? status_code resp)%Z && (status_code resp <? 600)%Z)
      || match content resp with None => true | Some _ => false end
  end.

(** Worlds to run the handlers in: one where every fetch gets the same
    answer, the chat client and the broker client never raise and
    [publish] returns [rc]. *)
Definition constant_world (answer : option Response) (rc : Z) : World :=
  {| http_get := fun _ _ => answer;
     telegram_ok := fun _ _ => true;
     publish_rc := fun _ _ _ => rc;
     mqtt_ok := fun _ _ => true |}.

(** A topic with one of the wildcards [+] and [#]. *)
Definition has_wildcard (t : str) : bool :=
  existsb (fun c => (c =? 43)%N || (c =? 35)%N) t.

(** A world whose broker client is strict about topics in the two ways
    the broker library documents: [subscribe] raises on the empty filter,
    and [publish] raises on the empty topic and on a topic with a
    wildcard. *)
Definition strict_broker_world (answer : option Response) (rc : Z) : World :=
  {| http_get := fun _ _ => answer;
     telegram_ok := fun _ _ => true;
     publish_rc := fun _ _ _ => rc;
     mqtt_ok := fun _ e =>
       match e with
       | subscribe [] => false
       | publish [] _ => false
       | publish t _ => negb (has_wildcard t)
       | _ => true
       end |}.

(** ** What the traces are asked

    The events of a trace by kind. *)

Definition is_fetch (e : event) : bool :=
  match e with requests_get _ _ _ => true | _ => false end.

Definition is_text_send (e : event) : bool :=
  match e with send_message _ _ _ => true | _ => false end.

Definition is_media_send (e : event) : bool :=
  match e with send_animation _ _ _ _ | send_photo _ _ _ _ => true | _ => false end.

Definition is_reply (e : event) : bool :=
  match e with reply_to _ _ => true | _ => false end.

Definition is_chat_send (e : event) : bool :=
  is_text_send e || is_media_send e || is_reply e.

Definition is_publish (e : event) : bool :=
  match e with publish _ _ => true | _ => false end.

Definition is_subscribe (e : event) : bool :=
  match e with subscribe _ => true | _ => false end.

(** Whom a call of the chat client is addressed to: the sends of
    [on_message] name their chat, and [bot.reply_to] answers in the chat
    of the message it is given, whose id is an integer.  [addressed_to
    cid e]: the event [e], if it is such a call, goes to the chat [cid]
    names. *)
Definition addressed_to (cid : option str) (e : event) : Prop :=
  match e with
  | send_animation c _ _ _ | send_photo c _ _ _ | send_message c _ _ =>
      c = of_getenv cid
  | reply_to m _ => py_str (VInt (chat_id m)) = py_str (of_getenv cid)
  | _ => True
  end.

(** ** The pattern in the words of the specification

    [image_url t scheme path ext q]: [t] is a scheme, [://], a path on one
    line, a dot, one of the five extensions and an optional query string,
    letters compared without case as [re.IGNORECASE] does. *)

Definition ieq (w s : str) : Prop :=
  Forall2 (fun l c => literal_match true l c = true) w s.

Definition extensions : list str :=
  [lit "jpg"; lit "jpeg"; lit "png"; lit "gif"; lit "webp"].

Definition image_url (t scheme path ext q : str) : Prop :=
  t = scheme ++ lit "://" ++ path ++ lit "." ++ ext ++ q
  /\ (ieq (lit "http") scheme \/ ieq (lit "https") scheme)
  /\ ~ In nl path
  /\ (exists e, In e extensions /\ ieq e ext)
  /\ (q = [] \/ exists q', q = lit "?" ++ q' /\ ~ In nl q').

(** The pattern as the specification writes it: at least one character
    between [://] and the dot, and the string itself (not its stripped
    form) is matched. *)
Definition spec_pattern_matches (s : str) : Prop :=
  exists scheme path ext q, image_url s scheme path ext q /\ path <> [].

(** The declarative meaning of the constructs of [Re]: [matches r pos s1
    s2 m] when [r] matches [s1] at offset [pos], followed by [s2], with
    captures [m]. *)
Fixpoint matches (ic : bool) (r : regex) (pos : nat) (s1 s2 : str) (m : captures) : Prop :=
  match r with
  | Str w => Forall2 (fun l c => literal_match ic l c = true) w s1 /\ m = []
  | DotStar => Forall (fun c => dot_match c = true) s1 /\ m = []
  | Cat r1 r2 =>
      exists a b m1 m2, s1 = a ++ b /\ m = m1 ++ m2
        /\ matches ic r1 pos a (b ++ s2) m1
        /\ matches ic r2 (pos + List.length a) b s2 m2
  | Or r1 r2 => matches ic r1 pos s1 s2 m \/ matches ic r2 pos s1 s2 m
  | Maybe r1 => matches ic r1 pos s1 s2 m \/ (s1 = [] /\ m = [])
  | Group n r1 => exists m1, matches ic r1 pos s1 s2 m1 /\ m = m1 ++ [(n, s1)]
  | Caret => pos = 0 /\ s1 = [] /\ m = []
  | Dollar => s1 = [] /\ (s2 = [] \/ s2 = [nl]) /\ m = []
  end.

(** ** The rest of the module: configuration and logging *)

(** [os.getenv(name, default)], given what the environment holds. *)
Definition getenv (v : option str) (default : str) : str :=
  match v with Some s => s | None => default end.

Definition comma : char := 44%N.

(** [s.split(sep)] for a separator of one character. *)
Fixpoint split (sep : char) (s : str) : list str :=
  match s with
  | [] => [[]]
  | c :: s' =>
      if (c =? sep)%N then [] :: split sep s'
      else match split sep s' with
           | piece :: pieces => (c :: piece) :: pieces
           | [] => [[c]]
           end
  end.

(** [sep.join(pieces)] *)
Fixpoint join (sep : char) (pieces : list str) : str :=
  match pieces with
  | [] => []
  | [piece] => piece
  | piece :: pieces' => piece ++ sep :: join sep pieces'
  end.

(** [MQTT_TOPICS_OUTPUT] at lines 51 to 54, from the value of the
    environment variable. *)
Definition MQTT_TOPICS_OUTPUT_of (env : option str) : list str :=
  split comma (getenv env (lit "telegram/output/#,mt32/#")).

(** The part of [logging] that [get_logger] touches.  A handler is a
    stream with a formatter; a logger has handlers, a level and the
    [propagate] flag; [logging.getLogger] keeps one logger for each
    name. *)
Inductive Stream := stdout | stderr.

Record Handler := { stream : Stream; fmt : str; datefmt : str }.

Record Logger := { handlers : list Handler; logger_level : Z; propagate : bool }.

Definition Registry := str -> option Logger.

Definition set_logger (name : str) (l : Logger) (reg : Registry) : Registry :=
  fun n => if str_eqb n name then Some l else reg n.

(** [logging.getLogger(name)]: the logger of that name, made on first
    use with no handler, level [NOTSET] and [propagate] set. *)
Definition getLogger (name : str) (reg : Registry) : Logger * Registry :=
  match reg name with
  | Some l => (l, reg)
  | None =>
      let l := {| handlers := []; logger_level := 0; propagate := true |} in
      (l, set_logger name l reg)
  end.

(** The level names [setLevel] knows; it raises [ValueError] on any
    other string. *)
Definition level_of_name (name : str) : option Z :=
  if str_eqb name (lit "CRITICAL") then Some 50%Z
  else if str_eqb name (lit "FATAL") then Some 50%Z
  else if str_eqb name (lit "ERROR") then Some 40%Z
  else if str_eqb name (lit "WARN") then Some 30%Z
  else if str_eqb name (lit "WARNING") then Some 30%Z
  else if str_eqb name (lit "INFO") then Some 20%Z
  else if str_eqb name (lit "DEBUG") then Some 10%Z
  else if str_eqb name (lit "NOTSET") then Some 0%Z
  else None.

(** [get_logger(name)], lines 18 to 34, as a change of the registry;
    [LOG_LEVEL] is the constant of line 16. *)
Definition get_logger (LOG_LEVEL : str) (name : str) (reg : Registry)
    : outcome Logger * Registry :=
  let (logger, reg1) := getLogger name reg in
  match handlers logger with
  | _ :: _ => (Ret logger, reg1)
  | [] =>
      match level_of_name LOG_LEVEL with
      | None => (Raise, reg1)
      | Some lv =>
          let handler :=
            {| stream := stdout;
               fmt := lit "%(asctime)s | %(levelname)s | %(name)s | %(message)s";
               datefmt := lit "%Y-%m-%d %H:%M:%S" |} in
          let logger' :=
            {| handlers := handlers logger ++ [handler];
               logger_level := lv;
               propagate := false |} in
          (Ret logger', set_logger name logger' reg1)
      end
  end.

(** A string of white space only. *)
Definition blank (s : str) : Prop := Forall (fun c => isspace c = true) s.

(** Two characters that are the same letter of ASCII in either case, or
    the same character. *)
Definition same_letter (c d : char) : Prop :=
  c = d
  \/ ((65 <= c <= 90)%N /\ d = (c + 32)%N)
  \/ ((65 <= d <= 90)%N /\ c = (d + 32)%N).

(** Two results of the matcher that agree up to the case of ASCII
    letters: both fail, or both succeed with the same groups and texts
    that agree. *)
Definition opt_same (A : Type) (R : A -> A -> Prop) (o1 o2 : option A) : Prop :=
  match o1, o2 with
  | Some a, Some b => R a b
  | None, None => True
  | _, _ => False
  end.

Definition caps_same (m1 m2 : captures) : Prop :=
  Forall2 (fun e1 e2 => fst e1 = fst e2 /\ Forall2 same_letter (snd e1) (snd e2))
    m1 m2.

(** Two classifications that agree up to the case of ASCII letters. *)
Definition classified_same (p1 p2 : ClassifiedPayload) : Prop :=
  match p1, p2 with
  | TextPayload t1, TextPayload t2 => Forall2 same_letter t1 t2
  | MediaPayload u1 k1, MediaPayload u2 k2 => Forall2 same_letter u1 u2 /\ k1 = k2
  | _, _ => False
  end.

(** A world where the chat client raises on every call. *)
Definition chat_down_world (answer : option Response) (rc : Z) : World :=
  {| http_get := fun _ _ => answer;
     telegram_ok := fun _ _ => false;
     publish_rc := fun _ _ _ => rc;
     mqtt_ok := fun _ _ => true |}.

(** * Properties *)

(** ** Strings *)

Lemma str_eqb_eq (a b : str) : str_eqb a b = true <-> a = b.
Proof.
  revert b; induction a as [|x a IH]; intros [|y b]; simpl; split; intro H;
    try reflexivity; try discriminate.
  - apply andb_true_iff in H as [Hx Hab]. apply N.eqb_eq in Hx.
    apply IH in Hab. congruence.
  - injection H as -> ->. rewrite N.eqb_refl. simpl. apply IH. reflexivity.
Qed.

Lemma str_eqb_refl (a : str) : str_eqb a a = true.
Proof. apply str_eqb_eq. reflexivity. Qed.

Lemma str_eqb_neq (a b : str) : str_eqb a b = false <-> a <> b.
Proof.
  split.
  - intros H E. apply str_eqb_eq in E. congruence.
  - intro H. destruct (str_eqb a b) eqn:E; [|reflexivity].
    apply str_eqb_eq in E. contradiction.
Qed.

Lemma app_same_length (A : Type) (a a' b b' : list A) :
  a ++ b = a' ++ b' -> List.length a = List.length a' -> a = a' /\ b = b'.
Proof.
  revert a'; induction a as [|x a IH]; intros [|y a'] E L; simpl in *;
    try discriminate; [auto|].
  injection E as -> E. injection L as L. destruct (IH _ E L) as [-> ->]. auto.
Qed.

Lemma lstrip_head (s : str) :
  lstrip s = [] \/ exists c r, lstrip s = c :: r /\ isspace c = false.
Proof.
  induction s as [|c s IH]; simpl.
  - left; reflexivity.
  - destruct (isspace c) eqn:E; [exact IH|]. right. eauto.
Qed.

(** A stripped string does not end with white space; in particular not
    with a newline. *)
Lemma strip_last (s x : str) (c : char) : strip s = x ++ [c] -> isspace c = false.
Proof.
  unfold strip, rstrip. intro H.
  destruct (lstrip_head (rev (lstrip s))) as [E | (c' & r & E & Hc)];
    rewrite E in H; simpl in H.
  - destruct x; discriminate.
  - apply app_inj_tail in H as [_ ->]. exact Hc.
Qed.

Lemma strip_no_trailing_nl (s x : str) : strip s <> x ++ [nl].
Proof. intro H. apply strip_last in H. discriminate. Qed.

(** ** The matcher against the declarative meaning *)

Section Engine.

Variable ic : bool.

Lemma eat_sound (w s s' : str) :
  eat ic w s = Some s' ->
  exists s1, s = s1 ++ s' /\ Forall2 (fun l c => literal_match ic l c = true) w s1.
Proof.
  revert s; induction w as [|l w IH]; intros s H; simpl in H.
  - injection H as ->. exists []. split; [reflexivity | constructor].
  - destruct s as [|c s]; [discriminate|].
    destruct (literal_match ic l c) eqn:E; [|discriminate].
    apply IH in H as (s1 & -> & F). exists (c :: s1). split; [reflexivity|].
    constructor; assumption.
Qed.

Lemma eat_complete (w s1 s2 : str) :
  Forall2 (fun l c => literal_match ic l c = true) w s1 ->
  eat ic w (s1 ++ s2) = Some s2.
Proof.
  induction 1 as [|l c w s1 H F IH]; simpl; [reflexivity|].
  rewrite H. exact IH.
Qed.

Lemma dotstar_complete (s1 s2 : str) (pos : nat) (k : nat -> str -> option captures) :
  Forall (fun c => dot_match c = true) s1 ->
  k (pos + List.length s1) s2 <> None ->
  dotstar pos (s1 ++ s2) k <> None.
Proof.
  intros F. revert pos. induction F as [|c s1 Hc F IH]; intros pos Hk.
  - simpl in *. rewrite Nat.add_0_r in Hk.
    destruct s2 as [|c s2]; simpl; [exact Hk|].
    destruct (dot_match c); [destruct (dotstar (S pos) s2 k)|];
      [discriminate | exact Hk | exact Hk].
  - simpl. rewrite Hc.
    specialize (IH (S pos)). simpl in Hk. rewrite Nat.add_succ_r in Hk.
    specialize (IH Hk). destruct (dotstar (S pos) (s1 ++ s2) k); congruence.
Qed.

(** Greedy repetition: the continuation succeeds after the run that was
    kept, and fails after every longer run of characters other than
    newlines. *)
Lemma dotstar_greedy (s : str) (pos : nat) (k : nat -> str -> option captures) (m : captures) :
  dotstar pos s k = Some m ->
  exists s1 s2, s = s1 ++ s2
    /\ Forall (fun c => dot_match c = true) s1
    /\ k (pos + List.length s1) s2 = Some m
    /\ forall s1' s2', s = s1' ++ s2' ->
         Forall (fun c => dot_match c = true) s1' ->
         List.length s1 < List.length s1' ->
         k (pos + List.length s1') s2' = None.
Proof.
  revert pos; induction s as [|c s IH]; intros pos H; simpl in H.
  - exists [], []. repeat split; auto.
    + rewrite Nat.add_0_r. exact H.
    + intros s1' s2' E _ L. destruct s1'; simpl in *; [lia | discriminate].
  - destruct (dot_match c) eqn:Ec; [destruct (dotstar (S pos) s k) as [m'|] eqn:Ed|].
    + injection H as ->.
      apply IH in Ed as (s1 & s2 & -> & F & Hk & Hmax).
      exists (c :: s1), s2. repeat split; auto.
      * replace (pos + List.length (c :: s1)) with (S pos + List.length s1)
          by (simpl; lia). exact Hk.
      * intros s1' s2' E F' L. destruct s1' as [|c' s1']; simpl in L; [lia|].
        simpl in E. injection E as <- E. inversion F'; subst.
        replace (pos + List.length (c :: s1')) with (S pos + List.length s1')
          by (simpl; lia).
        apply Hmax; auto. lia.
    + exists [], (c :: s). repeat split; auto.
      * rewrite Nat.add_0_r. exact H.
      * intros s1' s2' E F' L. destruct s1' as [|c' s1']; simpl in L; [lia|].
        simpl in E. injection E as <- E. inversion F' as [|? ? _ F'']; subst.
        destruct (k (pos + List.length (c :: s1')) s2') eqn:Ek; [|reflexivity].
        exfalso. apply (@dotstar_complete s1' s2' (S pos) k F''); [|exact Ed].
        replace (S pos + List.length s1') with (pos + List.length (c :: s1'))
          by (simpl; lia).
        congruence.
    + exists [], (c :: s). repeat split; auto.
      * rewrite Nat.add_0_r. exact H.
      * intros s1' s2' E F' L. destruct s1' as [|c' s1']; simpl in L; [lia|].
        simpl in E. injection E as <- E. inversion F'; subst. congruence.
Qed.

(** Soundness: a result of the matcher comes from a declarative match of
    [r] followed by a success of the continuation. *)
Lemma exec_sound (r : regex) :
  forall pos s k m, exec ic r pos s k = Some m ->
  exists s1 s2 m1 m2, s = s1 ++ s2 /\ matches ic r pos s1 s2 m1
    /\ k (pos + List.length s1) s2 = Some m2 /\ m = m1 ++ m2.
Proof.
  induction r as [w| |r1 IH1 r2 IH2|r1 IH1 r2 IH2|r1 IH1|n r1 IH1| |];
    intros pos s k m H; simpl in H.
  - destruct (eat ic w s) as [s'|] eqn:E; [|discriminate].
    apply eat_sound in E as (s1 & -> & F).
    exists s1, s', [], m. repeat split; auto.
    rewrite <- (Forall2_length F). exact H.
  - apply dotstar_greedy in H as (s1 & s2 & -> & F & Hk & _).
    exists s1, s2, [], m. repeat split; auto.
  - apply IH1 in H as (a & s' & m1 & m' & -> & M1 & H & ->).
    apply IH2 in H as (b & s2 & m2 & m3 & -> & M2 & H & ->).
    exists (a ++ b), s2, (m1 ++ m2), m3. rewrite <- !app_assoc. repeat split; auto.
    + simpl. exists a, b, m1, m2. auto.
    + rewrite length_app, Nat.add_assoc. exact H.
  - destruct (exec ic r1 pos s k) as [m'|] eqn:E.
    + injection H as ->. apply IH1 in E as (s1 & s2 & m1 & m2 & -> & M & Hk & ->).
      exists s1, s2, m1, m2. simpl. auto.
    + apply IH2 in H as (s1 & s2 & m1 & m2 & -> & M & Hk & ->).
      exists s1, s2, m1, m2. simpl. auto.
  - destruct (exec ic r1 pos s k) as [m'|] eqn:E.
    + injection H as ->. apply IH1 in E as (s1 & s2 & m1 & m2 & -> & M & Hk & ->).
      exists s1, s2, m1, m2. simpl. auto.
    + exists [], s, [], m. simpl. rewrite Nat.add_0_r. auto.
  - apply IH1 in H as (s1 & s2 & m1 & m' & -> & M & Hk & ->).
    replace (pos + List.length s1 - pos) with (List.length s1) in Hk by lia.
    rewrite firstn_app, Nat.sub_diag, firstn_all, app_nil_r in Hk.
    destruct (k (pos + List.length s1) s2) as [m2|] eqn:Ek; [|discriminate].
    injection Hk as <-.
    exists s1, s2, (m1 ++ [(n, s1)]), m2. rewrite <- app_assoc. simpl.
    repeat split; auto. exists m1. auto.
  - destruct (Nat.eqb pos 0) eqn:E; [|discriminate]. apply Nat.eqb_eq in E.
    exists [], s, [], m. simpl. rewrite Nat.add_0_r. auto.
  - destruct s as [|c [|d s]]; try discriminate.
    + exists [], [], [], m. simpl. rewrite Nat.add_0_r. repeat split; auto.
    + destruct (c =? nl)%N eqn:E; [|discriminate]. apply N.eqb_eq in E. subst c.
      exists [], [nl], [], m. simpl. rewrite Nat.add_0_r. repeat split; auto.
Qed.

(** Completeness: where [r] matches declaratively and the continuation
    succeeds, the matcher finds a match (this one or one of higher
    priority). *)
Lemma exec_complete (r : regex) :
  forall pos s1 s2 m1 k, matches ic r pos s1 s2 m1 ->
  k (pos + List.length s1) s2 <> None ->
  exec ic r pos (s1 ++ s2) k <> None.
Proof.
  induction r as [w| |r1 IH1 r2 IH2|r1 IH1 r2 IH2|r1 IH1|n r1 IH1| |];
    intros pos s1 s2 m1 k M Hk; simpl in M; simpl.
  - destruct M as [F _]. rewrite (eat_complete s2 F), (Forall2_length F). exact Hk.
  - destruct M as [F _]. apply dotstar_complete; assumption.
  - destruct M as (a & b & ma & mb & -> & _ & Ma & Mb).
    rewrite <- app_assoc. apply (IH1 _ _ _ _ _ Ma).
    apply (IH2 _ _ _ _ _ Mb). rewrite length_app, Nat.add_assoc in Hk. exact Hk.
  - destruct M as [M | M].
    + pose proof (IH1 _ _ _ _ _ M Hk). destruct (exec ic r1 pos (s1 ++ s2) k); congruence.
    + destruct (exec ic r1 pos (s1 ++ s2) k); [discriminate|].
      apply (IH2 _ _ _ _ _ M Hk).
  - destruct M as [M | [-> _]].
    + pose proof (IH1 _ _ _ _ _ M Hk). destruct (exec ic r1 pos (s1 ++ s2) k); congruence.
    + simpl in *. rewrite Nat.add_0_r in Hk.
      destruct (exec ic r1 pos s2 k); [discriminate | exact Hk].
  - destruct M as (m' & M & _). apply (IH1 _ _ _ _ _ M).
    destruct (k (pos + List.length s1) s2); [discriminate | congruence].
  - destruct M as (-> & -> & _). simpl in *. exact Hk.
  - destruct M as (-> & [-> | ->] & _); simpl in *; rewrite Nat.add_0_r in Hk; exact Hk.
Qed.

End Engine.

(** ** The pattern *)

Ltac red_lit :=
  repeat match goal with
  | |- context [lit ?s] =>
      let v := eval vm_compute in (lit s) in change (lit s) with v
  | H : context [lit ?s] |- _ =>
      let v := eval vm_compute in (lit s) in change (lit s) with v in H
  end.

Ltac inv_Forall2 :=
  repeat match goal with
  | H : Forall2 _ (_ :: _) _ |- _ => inversion H; clear H; subst
  | H : Forall2 _ [] _ |- _ => inversion H; clear H; subst
  end.

Lemma IMAGE_URL_REGEX_parts (pos : nat) (s : str) (k : nat -> str -> option captures) :
  exec true IMAGE_URL_REGEX pos s k
  = exec true URL_HEAD pos s (fun p s' =>
      dotstar p s' (fun p' s'' => exec true URL_TAIL p' s'' k)).
Proof. reflexivity. Qed.

(** Under [re.IGNORECASE] a literal that is not a letter matches itself
    only. *)
Lemma literal_uncased (l c : char) :
  (l < 65)%N -> literal_match true l c = true -> c = l.
Proof.
  intros Hl H. unfold literal_match, unicode_tolower in H.
  repeat match type of H with
  | context [if ?b then _ else _] => destruct b eqn:?
  end;
  repeat match goal with
  | H : (_ || _)%bool = true |- _ => apply orb_true_iff in H as [H | H]
  | H : (_ && _)%bool = true |- _ => apply andb_true_iff in H as [? ?]
  | H : (_ =? _)%N = true |- _ => apply N.eqb_eq in H
  | H : (_ <=? _)%N = true |- _ => apply N.leb_le in H
  end; try lia; try discriminate.
Qed.

Lemma dot_match_forall (s : str) :
  Forall (fun c => dot_match c = true) s <-> ~ In nl s.
Proof.
  unfold dot_match. rewrite Forall_forall. split.
  - intros H I. apply H in I. discriminate.
  - intros H c I. destruct (c =? nl)%N eqn:E; [|reflexivity].
    apply N.eqb_eq in E. subst. contradiction.
Qed.

Lemma ieq_app (w1 w2 s1 s2 : str) : ieq w1 s1 -> ieq w2 s2 -> ieq (w1 ++ w2) (s1 ++ s2).
Proof. apply Forall2_app. Qed.

Lemma ieq_uncased (w s : str) :
  Forall (fun l => (l < 65)%N) w -> ieq w s -> s = w.
Proof.
  intros Hw F. induction F as [|l c w s H F IH]; [reflexivity|].
  inversion Hw; subst. f_equal; [apply literal_uncased; assumption | auto].
Qed.

(** The head of the pattern: a scheme and [://]. *)
Lemma URL_HEAD_matches (h rest : str) (m : captures) :
  matches true URL_HEAD 0 h rest m ->
  m = [] /\ exists scheme, h = scheme ++ lit "://"
    /\ (ieq (lit "http") scheme \/ ieq (lit "https") scheme).
Proof.
  simpl. intros (a & b & m1 & m2 & -> & -> & (_ & -> & ->) & M).
  destruct M as (a2 & b2 & m3 & m4 & -> & -> & (F1 & ->) & M).
  destruct M as (a3 & b3 & m5 & m6 & -> & -> & Ms & (F3 & ->)).
  assert (E3 : b3 = lit "://").
  { apply ieq_uncased; [|exact F3]. red_lit. repeat constructor. }
  subst b3. destruct Ms as [(Fs & ->) | (-> & ->)]; (split; [reflexivity|]).
  - exists (a2 ++ a3). simpl. rewrite <- app_assoc. split; [reflexivity|].
    right. change (lit "https") with (lit "http" ++ lit "s"). apply ieq_app; assumption.
  - exists a2. simpl. split; [reflexivity|]. left. exact F1.
Qed.

Lemma URL_HEAD_complete (scheme rest : str) :
  ieq (lit "http") scheme \/ ieq (lit "https") scheme ->
  exists m, matches true URL_HEAD 0 (scheme ++ lit "://") rest m.
Proof.
  intros H. exists []. simpl.
  exists [], (scheme ++ lit "://"), [], []. repeat split.
  assert (F3 : Forall2 (fun l c => literal_match true l c = true) (lit "://") (lit "://")).
  { red_lit. repeat constructor. }
  destruct H as [H | H].
  - exists scheme, (lit "://"), [], []. repeat split; [exact H|].
    exists [], (lit "://"), [], []. repeat split; auto.
  - change (lit "https") with (lit "http" ++ lit "s") in H.
    apply Forall2_app_inv_l in H as (s1 & s2 & H1 & H2 & ->).
    exists s1, (s2 ++ lit "://"), [], []. rewrite <- app_assoc.
    repeat split; [exact H1|].
    exists s2, (lit "://"), [], []. repeat split; auto.
Qed.

(** The tail of the pattern: the dot, the extension (group 1), the
    optional query string, the end of the subject. *)
Lemma URL_TAIL_matches (pos : nat) (s1 s2 : str) (m : captures) :
  matches true URL_TAIL pos s1 s2 m ->
  exists ext q, s1 = lit "." ++ ext ++ q
    /\ (exists e, In e extensions /\ ieq e ext)
    /\ (q = [] \/ exists q', q = lit "?" ++ q' /\ ~ In nl q')
    /\ (s2 = [] \/ s2 = [nl])
    /\ group m 1 = Some ext.
Proof.
  simpl. intros (a & b & m1 & m2 & -> & -> & (Fdot & ->) & M).
  destruct M as (ext & b2 & m3 & m4 & -> & -> & (mm & Mext & ->) & M).
  destruct M as (q & b3 & m5 & m6 & -> & -> & Mq & (-> & Hend & ->)).
  assert (Ea : a = lit ".").
  { apply ieq_uncased; [|exact Fdot]. red_lit. repeat constructor. }
  subst a. exists ext, q. rewrite app_nil_r.
  assert (Hext : (exists e, In e extensions /\ ieq e ext) /\ mm = []).
  { unfold extensions.
    destruct Mext as [[F ->] | [[F ->] | [[F ->] | [[F ->] | [F ->]]]]];
      (split; [eexists; split; [|exact F]; simpl; auto 6 | reflexivity]). }
  destruct Hext as [Hext ->].
  repeat split; auto.
  destruct Mq as [(mq & (a4 & b4 & m7 & m8 & -> & -> & (Fq & ->) & (Fd & ->)) & ->) | (-> & ->)].
  - right. exists b4. split; [|apply dot_match_forall; exact Fd].
    assert (Eq : a4 = lit "?").
    { apply ieq_uncased; [|exact Fq]. red_lit. repeat constructor. }
    subst a4. reflexivity.
  - left. reflexivity.
Qed.

Lemma URL_TAIL_complete (pos : nat) (ext q : str) :
  (exists e, In e extensions /\ ieq e ext) ->
  (q = [] \/ exists q', q = lit "?" ++ q' /\ ~ In nl q') ->
  exists m, matches true URL_TAIL pos (lit "." ++ ext ++ q) [] m.
Proof.
  intros (e & He & Fe) Hq.
  assert (Fdot : Forall2 (fun l c => literal_match true l c = true) (lit ".") (lit ".")).
  { red_lit. repeat constructor. }
  assert (Fqm : Forall2 (fun l c => literal_match true l c = true) (lit "?") (lit "?")).
  { red_lit. repeat constructor. }
  assert (Mq : exists mq, matches true (Maybe (Group 2 (Cat (Str (lit "?")) DotStar)))
                 (pos + 1 + List.length ext) q [] mq).
  { destruct Hq as [-> | (q' & -> & Hq')].
    - exists []. simpl. right. auto.
    - eexists. simpl. left. eexists. split; [|reflexivity].
      exists (lit "?"), q', [], []. rewrite app_nil_r.
      repeat split; auto. apply dot_match_forall. exact Hq'. }
  destruct Mq as (mq & Mq).
  exists ([(1, ext)] ++ mq).
  exists (lit "."), (ext ++ q), [], ([(1, ext)] ++ mq).
  split; [reflexivity|]. split; [reflexivity|].
  split; [split; [exact Fdot | reflexivity]|].
  exists ext, q, [(1, ext)], mq.
  split; [reflexivity|]. split; [reflexivity|]. split.
  - exists []. split; [|reflexivity].
    unfold extensions in He. simpl in He.
    destruct He as [<- | [<- | [<- | [<- | [<- | []]]]]].
    + left. split; [exact Fe | reflexivity].
    + right; left. split; [exact Fe | reflexivity].
    + right; right; left. split; [exact Fe | reflexivity].
    + right; right; right; left. split; [exact Fe | reflexivity].
    + right; right; right; right. split; [exact Fe | reflexivity].
  - exists q, [], mq, [].
    split; [rewrite app_nil_r; reflexivity|].
    split; [rewrite app_nil_r; reflexivity|]. split.
    + exact Mq.
    + simpl. auto.
Qed.

(** The scheme of a URL is determined by the URL. *)
Lemma scheme_unique (a b x y : str) :
  ieq (lit "http") a \/ ieq (lit "https") a ->
  ieq (lit "http") b \/ ieq (lit "https") b ->
  a ++ lit "://" ++ x = b ++ lit "://" ++ y -> a = b.
Proof.
  unfold ieq. red_lit.
  intros [Ha | Ha] [Hb | Hb] E; inv_Forall2; simpl in E;
    injection E; intros; subst; try reflexivity;
    match goal with
    | H : literal_match true 115%N 58%N = true |- _ => vm_compute in H; discriminate
    end.
Qed.

(** Completeness of the pattern: every string of the declared shape is
    matched. *)
Lemma match_complete (t scheme path ext q : str) :
  image_url t scheme path ext q -> IMAGE_URL_PATTERN_match t <> None.
Proof.
  intros (-> & Hs & Hp & He & Hq).
  unfold IMAGE_URL_PATTERN_match, re_match. rewrite IMAGE_URL_REGEX_parts.
  destruct (URL_HEAD_complete (path ++ lit "." ++ ext ++ q) Hs) as (mh & Mh).
  rewrite app_assoc.
  eapply exec_complete; [exact Mh|].
  apply dotstar_complete; [apply dot_match_forall; exact Hp|].
  destruct (URL_TAIL_complete
              (0 + List.length (scheme ++ lit "://") + List.length path) He Hq)
    as (mt & Mt).
  rewrite <- (app_nil_r (lit "." ++ ext ++ q)).
  eapply exec_complete; [exact Mt | discriminate].
Qed.

(** Soundness of the pattern, with the priority of the greedy path: a
    match splits the subject in the declared shape, group 1 is the
    extension of the split, and no split of the subject has a longer
    path. *)
Lemma match_greedy (t : str) (m : captures) :
  (forall x, t <> x ++ [nl]) ->
  IMAGE_URL_PATTERN_match t = Some m ->
  exists scheme path ext q,
    image_url t scheme path ext q
    /\ group m 1 = Some ext
    /\ forall scheme' path' ext' q', image_url t scheme' path' ext' q' ->
         List.length path' <= List.length path.
Proof.
  intros Hnl H. unfold IMAGE_URL_PATTERN_match, re_match in H.
  rewrite IMAGE_URL_REGEX_parts in H.
  apply exec_sound in H as (h & rest & m1 & m2 & -> & Mh & H & ->).
  apply URL_HEAD_matches in Mh as (-> & scheme & -> & Hs).
  apply dotstar_greedy in H as (path & rest2 & -> & Fp & H & Hmax).
  apply exec_sound in H as (s1 & s2 & m3 & m4 & -> & Mt & H & ->).
  injection H as <-.
  apply URL_TAIL_matches in Mt as (ext & q & -> & He & Hq & Hend & Hg).
  assert (s2 = []) as ->.
  { destruct Hend as [-> | ->]; [reflexivity|]. exfalso.
    apply (Hnl ((scheme ++ lit "://") ++ path ++ lit "." ++ ext ++ q)).
    rewrite <- !app_assoc. reflexivity. }
  exists scheme, path, ext, q. split; [|split].
  - split; [rewrite <- !app_assoc, app_nil_r; reflexivity|].
    repeat split; auto. apply dot_match_forall. exact Fp.
  - simpl. rewrite app_nil_r. exact Hg.
  - intros scheme' path' ext' q' (E & Hs' & Hp' & He' & Hq').
    rewrite <- !app_assoc, app_nil_r in E.
    assert (scheme = scheme') as <- by (eapply scheme_unique; eauto).
    apply app_inv_head in E. apply app_inv_head in E.
    destruct (Nat.le_gt_cases (List.length path') (List.length path)) as [L | L];
      [exact L | exfalso].
    rewrite app_nil_r in Hmax.
    apply dot_match_forall in Hp'.
    specialize (Hmax path' (lit "." ++ ext' ++ q') E Hp' L).
    destruct (URL_TAIL_complete
                (0 + List.length (scheme ++ lit "://") + List.length path') He' Hq')
      as (mt & Mt).
    rewrite <- (app_nil_r (lit "." ++ ext' ++ q')) in Hmax.
    revert Hmax. eapply exec_complete; [exact Mt | discriminate].
Qed.

(** At a given dot, the extension is determined: [jpg] followed by [e] is
    not followed by the end or a question mark. *)
Lemma ext_unique (ext q ext' q' : str) :
  (exists e, In e extensions /\ ieq e ext) ->
  (q = [] \/ exists r, q = lit "?" ++ r /\ ~ In nl r) ->
  (exists e, In e extensions /\ ieq e ext') ->
  (q' = [] \/ exists r, q' = lit "?" ++ r /\ ~ In nl r) ->
  ext ++ q = ext' ++ q' -> ext = ext'.
Proof.
  intros (e & He & Fe) Hq (e' & He' & Fe') Hq' E.
  unfold extensions in He, He'. simpl in He, He'. unfold ieq in Fe, Fe'.
  red_lit.
  destruct He as [<- | [<- | [<- | [<- | [<- | []]]]]];
  destruct He' as [<- | [<- | [<- | [<- | [<- | []]]]]];
  inv_Forall2;
  destruct Hq as [-> | (r & -> & _)]; destruct Hq' as [-> | (r' & -> & _)];
  simpl in E; try discriminate E; injection E; intros; subst;
  try reflexivity;
  match goal with
  | H : literal_match true _ 63%N = true |- _ => vm_compute in H; discriminate
  end.
Qed.

(** What a letter of the extensions matches: itself, its capital and,
    for [i], the dotted capital and the dotless small letter. *)
Lemma literal_letter (l c : char) :
  (97 <= l <= 122)%N -> l <> 115%N -> l <> 107%N ->
  literal_match true l c = true ->
  c = l \/ c = (l - 32)%N \/ (l = 105%N /\ (c = 0x130%N \/ c = 0x131%N)).
Proof.
  intros Hl Hs Hk H. unfold literal_match, unicode_tolower in H.
  repeat match type of H with
  | context [if ?b then _ else _] => destruct b eqn:?
  end;
  repeat match goal with
  | H : (_ || _)%bool = true |- _ => apply orb_true_iff in H as [H | H]
  | H : (_ && _)%bool = true |- _ => apply andb_true_iff in H as [? ?]
  | H : (_ =? _)%N = true |- _ => apply N.eqb_eq in H
  | H : (_ <=? _)%N = true |- _ => apply N.leb_le in H
  end; try lia; try discriminate.
Qed.

(** The characters of an extension: ASCII letters, U+0130 and U+0131,
    on which [lower_char] is [str.lower]. *)
Lemma extension_chars (t scheme path ext q : str) :
  image_url t scheme path ext q ->
  Forall (fun c => (65 <= c <= 90)%N \/ (97 <= c <= 122)%N
                   \/ c = 0x130%N \/ c = 0x131%N) ext.
Proof.
  intros (_ & _ & _ & (e & He & Fe) & _).
  assert (Hl : Forall (fun l => (97 <= l <= 122)%N /\ l <> 115%N /\ l <> 107%N) e).
  { unfold extensions in He. simpl in He.
    destruct He as [<- | [<- | [<- | [<- | [<- | []]]]]];
      repeat constructor; try lia; try discriminate. }
  clear He. induction Fe as [|l c e ext H F IH]; [constructor|].
  inversion Hl as [|? ? (Hl1 & Hl2 & Hl3) Hl']; subst.
  constructor; [|apply IH; exact Hl'].
  destruct (@literal_letter l c Hl1 Hl2 Hl3 H) as [-> | [-> | (_ & [-> | ->])]]; lia.
Qed.

(** Group 1 takes part in every match of the pattern. *)
Lemma match_group1 (t : str) (m : captures) :
  IMAGE_URL_PATTERN_match t = Some m -> exists g, group m 1 = Some g.
Proof.
  intros H. unfold IMAGE_URL_PATTERN_match, re_match in H.
  rewrite IMAGE_URL_REGEX_parts in H.
  apply exec_sound in H as (h & rest & m1 & m2 & -> & Mh & H & ->).
  apply URL_HEAD_matches in Mh as (-> & _).
  apply dotstar_greedy in H as (path & rest2 & -> & _ & H & _).
  apply exec_sound in H as (s1 & s2 & m3 & m4 & -> & Mt & H & ->).
  injection H as <-.
  apply URL_TAIL_matches in Mt as (ext & q & _ & _ & _ & _ & Hg).
  exists ext. simpl. rewrite app_nil_r. exact Hg.
Qed.

(** The split with the longest path is the one the pattern takes. *)
Lemma match_longest (s : str) (scheme path ext q : str) :
  image_url (strip s) scheme path ext q ->
  (forall scheme' path' ext' q', image_url (strip s) scheme' path' ext' q' ->
     List.length path' <= List.length path) ->
  exists m, IMAGE_URL_PATTERN_match (strip s) = Some m /\ group m 1 = Some ext.
Proof.
  intros U Hmax.
  destruct (IMAGE_URL_PATTERN_match (strip s)) as [m|] eqn:Em;
    [|exfalso; exact (match_complete U Em)].
  exists m. split; [reflexivity|].
  destruct (match_greedy (@strip_no_trailing_nl s) Em)
    as (scheme' & path' & ext' & q' & U' & Hg & Hmax').
  rewrite Hg. f_equal.
  pose proof (Hmax _ _ _ _ U') as L1. pose proof (Hmax' _ _ _ _ U) as L2.
  destruct U as (E & Hs & _ & He & Hq). destruct U' as (E' & Hs' & _ & He' & Hq').
  rewrite E in E'.
  assert (scheme = scheme') as <- by (eapply scheme_unique; eauto).
  apply app_inv_head in E'. apply app_inv_head in E'.
  assert (Ep : path = path' /\ lit "." ++ ext ++ q = lit "." ++ ext' ++ q').
  { apply app_same_length; [exact E' | lia]. }
  destruct Ep as [_ Ep]. apply app_inv_head in Ep.
  symmetry. exact (ext_unique He Hq He' Hq' Ep).
Qed.

Lemma image_url_length (t scheme path ext q : str) :
  image_url t scheme path ext q ->
  List.length t
  = List.length scheme + 3 + List.length path + 1 + List.length ext + List.length q
  /\ 4 <= List.length scheme /\ 3 <= List.length ext.
Proof.
  intros (-> & Hs & _ & (e & He & Fe) & _).
  rewrite !length_app. split; [simpl; lia|].
  unfold ieq in *. split.
  - destruct Hs as [F | F]; apply Forall2_length in F; rewrite <- F; simpl; lia.
  - apply Forall2_length in Fe. rewrite <- Fe. unfold extensions in He. simpl in He.
    destruct He as [<- | [<- | [<- | [<- | [<- | []]]]]]; simpl; lia.
Qed.

Lemma kind_of_ext_animation (e : str) :
  kind_of_ext e = animation <-> e = lit "gif".
Proof.
  unfold kind_of_ext. destruct (str_eqb e (lit "gif")) eqn:E.
  - apply str_eqb_eq in E. tauto.
  - apply str_eqb_neq in E. split; [discriminate | contradiction].
Qed.

(** ** The handlers, run *)

Ltac run :=
  cbv [bind try_except ret raise emit logger bot get raise_for_status
       read_content client_subscribe mqtt_client_publish events result].

Section Runs.

Variable CHAT_ID : option str.
Variable world : World.

(** The text branch of [on_message]. *)
Lemma on_message_text (msg : MQTTMessage) (h : list event) :
  IMAGE_URL_PATTERN_match (strip (payload_decoded msg)) = None ->
  exists l,
    on_message CHAT_ID world msg h
    = (Ret tt,
       [ log INFO (lit "MQTT message received | topic=" ++ topic msg
                   ++ lit " | payload=" ++ strip (payload_decoded msg));
         send_message (of_getenv CHAT_ID)
           (lit "Topic: " ++ topic msg ++ [nl] ++ lit "Message: "
            ++ strip (payload_decoded msg)) (lit "Markdown");
         l ])
    /\ exists lv t, l = log lv t.
Proof.
  intros H. unfold on_message. rewrite H. run.
  match goal with |- context [telegram_ok world ?a ?b] =>
    destruct (telegram_ok world a b) end; simpl; eauto.
Qed.

(** The media branch of [on_message]: one fetch; then nothing but a log
    record when the fetch raises, the status is an error status or the
    body cannot be read, and one media send otherwise. *)
Lemma on_message_media (msg : MQTTMessage) (h : list event) (m : captures) (g : str) :
  IMAGE_URL_PATTERN_match (strip (payload_decoded msg)) = Some m ->
  group m 1 = Some g ->
  exists h1 l,
    (exists lv t, l = log lv t) /\
    on_message CHAT_ID world msg h
    = (Ret tt,
       [ log INFO (lit "MQTT message received | topic=" ++ topic msg
                   ++ lit " | payload=" ++ strip (payload_decoded msg));
         log INFO (lit "Downloading image (" ++ lower g ++ lit ") from URL");
         requests_get (strip (payload_decoded msg)) 15 true ]
       ++ match http_get world h1 (strip (payload_decoded msg)) with
          | Some {| status_code := st; content := Some data |} =>
              if (400 <=? st)%Z && (st <? 600)%Z then [l]
              else
                [ (if str_eqb (lower g) (lit "gif") then send_animation else send_photo)
                    (of_getenv CHAT_ID) (lit "snapshot." ++ lower g) data
                    (lit "Topic: " ++ topic msg);
                  l ]
          | _ => [l]
          end).
Proof.
  intros H Hg. unfold on_message. rewrite H, Hg. run.
  match goal with |- context [http_get world ?a ?b] =>
    exists a; destruct (http_get world a b) as [[st [data|]]|] end; simpl.
  - destruct ((400 <=? st)%Z && (st <? 600)%Z); simpl.
    + eexists; split; [|reflexivity]; eauto.
    + destruct (str_eqb (lower g) (lit "gif")); simpl;
        match goal with |- context [telegram_ok world ?a ?b] =>
          destruct (telegram_ok world a b) end; simpl;
        (eexists; split; [|reflexivity]; eauto).
  - destruct ((400 <=? st)%Z && (st <? 600)%Z); simpl;
      (eexists; split; [|reflexivity]; eauto).
  - eexists; split; [|reflexivity]; eauto.
Qed.

Variable MQTT_TOPIC_INPUT : str.

(** The two branches of [handle_telegram_message]. *)
Lemma handle_rejected (message : Message) (h : list event) :
  str_eqb (py_str (VInt (chat_id message))) (py_str (of_getenv CHAT_ID)) = false ->
  handle_telegram_message CHAT_ID MQTT_TOPIC_INPUT world message h
  = (Ret tt, [log WARNING (lit "Ignored message from unauthorized chat_id="
                           ++ str_of_int (chat_id message))]).
Proof.
  intros E. unfold handle_telegram_message. rewrite E. reflexivity.
Qed.

Lemma handle_accepted (message : Message) (h : list event) :
  str_eqb (py_str (VInt (chat_id message))) (py_str (of_getenv CHAT_ID)) = true ->
  exists o l,
    (exists lv t, l = log lv t) /\
    handle_telegram_message CHAT_ID MQTT_TOPIC_INPUT world message h
    = if mqtt_ok world h (publish MQTT_TOPIC_INPUT (text message)) then
        (o,
         [ publish MQTT_TOPIC_INPUT (text message);
           reply_to message
             (if (publish_rc world h MQTT_TOPIC_INPUT (text message)
                  =? MQTT_ERR_SUCCESS)%Z
              then lit "Sent to `" ++ MQTT_TOPIC_INPUT ++ lit "`"
              else lit "ERROR - Publishing to MQTT failed") ]
         ++ match o with Ret _ => [l] | Raise => [] end)
      else (Raise, [publish MQTT_TOPIC_INPUT (text message)]).
Proof.
  intros E. unfold handle_telegram_message. rewrite E. simpl. run. simpl.
  destruct (mqtt_ok world h (publish MQTT_TOPIC_INPUT (text message))); simpl;
    [|exists Raise, (log INFO []); split; [eauto | reflexivity]].
  destruct (publish_rc world h MQTT_TOPIC_INPUT (text message) =? MQTT_ERR_SUCCESS)%Z;
    simpl;
    match goal with |- context [telegram_ok world ?a ?b] =>
      destruct (telegram_ok world a b) end; simpl.
  all: try (exists (Ret tt); eexists; split; [|reflexivity]; eauto).
  all: exists Raise, (log INFO []); split; [eauto | reflexivity].
Qed.

(** The shape of an accepted run: the publish, then at most the reply
    and the closing record. *)
Lemma handle_accepted_shape (message : Message) (h : list event) :
  str_eqb (py_str (VInt (chat_id message))) (py_str (of_getenv CHAT_ID)) = true ->
  exists o tail,
    handle_telegram_message CHAT_ID MQTT_TOPIC_INPUT world message h
    = (o, publish MQTT_TOPIC_INPUT (text message) :: tail)
    /\ (tail = []
        \/ exists reply rest,
             tail = reply_to message reply :: rest
             /\ (rest = [] \/ exists lv t, rest = [log lv t])).
Proof.
  intros E.
  destruct (handle_accepted message h E) as (o & l & (lv & t & ->) & ->).
  destruct (mqtt_ok world h (publish MQTT_TOPIC_INPUT (text message))).
  - eexists. eexists. split; [reflexivity|]. right. eexists. eexists.
    split; [reflexivity|]. destruct o; eauto.
  - eexists. eexists. split; [reflexivity|]. left. reflexivity.
Qed.

End Runs.

(** * The claims *)

(** ** Classification *)

(** C1, as amended.  Let [t] be the payload stripped.  Where [t] is a URL
    of the shape of the pattern (scheme [http] or [https], [://], a
    possibly empty path on one line, a dot, one of the five extensions,
    an optional query string; letters without case), the payload is
    classified as media with URL [t], and as an animation exactly when
    the extension of the split with the longest path, lower-cased, is
    [gif]; where [t] has no such shape, it is classified as the text
    [t]. *)
Theorem classify_image_url (s : str) :
  (forall scheme path ext q,
     image_url (strip s) scheme path ext q ->
     (forall scheme' path' ext' q',
        image_url (strip s) scheme' path' ext' q' ->
        List.length path' <= List.length path) ->
     exists kind, classify s = MediaPayload (strip s) kind
       /\ (kind = animation <-> lower ext = lit "gif"))
  /\ ((forall scheme path ext q, ~ image_url (strip s) scheme path ext q) ->
      classify s = TextPayload (strip s)).
Proof.
  split.
  - intros scheme path ext q U Hmax.
    destruct (match_longest s U Hmax) as (m & Em & Hg).
    exists (kind_of_ext (lower ext)). split; [|apply kind_of_ext_animation].
    unfold classify. simpl. rewrite Em, Hg. reflexivity.
  - intros Hno. unfold classify. simpl.
    destruct (IMAGE_URL_PATTERN_match (strip s)) as [m|] eqn:Em; [|reflexivity].
    exfalso.
    destruct (match_greedy (@strip_no_trailing_nl s) Em)
      as (scheme & path & ext & q & U & _).
    exact (Hno _ _ _ _ U).
Qed.

Lemma classify_image_url_witness :
  (exists kind, classify (lit " http://a/b.GIF ") = MediaPayload (lit "http://a/b.GIF") kind
     /\ (kind = animation <-> lower (lit "GIF") = lit "gif"))
  /\ classify (lit "door open ") = TextPayload (lit "door open").
Proof.
  split.
  - apply (proj1 (classify_image_url (lit " http://a/b.GIF ")))
      with (scheme := lit "http") (path := lit "a/b") (q := []).
    + split; [reflexivity|]. split; [left; repeat constructor|].
      split; [simpl; intuition discriminate|].
      split; [|left; reflexivity].
      exists (lit "gif"). split; [simpl; auto|]. repeat constructor.
    + intros scheme' path' ext' q' U. apply image_url_length in U.
      change (List.length (strip (lit " http://a/b.GIF "))) with 14 in U.
      simpl. lia.
  - apply (proj2 (classify_image_url (lit "door open "))).
    intros scheme path ext q U. apply image_url_length in U.
    change (List.length (strip (lit "door open "))) with 9 in U. lia.
Defined.

(** C1, as stated, fails: [http://.png] does not match the pattern of the
    specification, which wants a character between [://] and the dot, and
    yet it is classified as media, not as text. *)
Lemma classify_spec_pattern_counterexample :
  ~ spec_pattern_matches (lit "http://.png")
  /\ classify (lit "http://.png") = MediaPayload (lit "http://.png") image
  /\ classify (lit "http://.png") <> TextPayload (strip (lit "http://.png")).
Proof.
  split; [|split].
  - intros (scheme & path & ext & q & U & Hp). apply image_url_length in U.
    change (List.length (lit "http://.png")) with 11 in U.
    destruct path; [contradiction | simpl in U; lia].
  - vm_compute. reflexivity.
  - vm_compute. discriminate.
Qed.

(** X1.  [classify] is the decision [on_message] takes: text goes out as one
    text message and nothing is fetched; for media the URL is fetched
    once, and what is sent, if anything, is an animation or a photo
    according to the kind. *)
Lemma on_message_classify (CHAT_ID : option str) (world : World)
    (msg : MQTTMessage) (h : list event) :
  let evs := events (on_message CHAT_ID world msg h) in
  match classify (payload_decoded msg) with
  | TextPayload t =>
      filter is_fetch evs = []
      /\ filter is_chat_send evs
         = [send_message (of_getenv CHAT_ID)
              (lit "Topic: " ++ topic msg ++ [nl] ++ lit "Message: " ++ t)
              (lit "Markdown")]
  | MediaPayload url kind =>
      filter is_fetch evs = [requests_get url 15 true]
      /\ Forall (fun e => is_chat_send e = true ->
                   exists name data caption,
                     e = match kind with
                         | animation => send_animation
                         | image => send_photo
                         end (of_getenv CHAT_ID) name data caption) evs
  end.
Proof.
  unfold classify. simpl.
  destruct (IMAGE_URL_PATTERN_match (strip (payload_decoded msg))) as [m|] eqn:Em.
  - destruct (match_group1 _ Em) as (g & Hg). rewrite Hg.
    destruct (on_message_media CHAT_ID world msg h Em Hg)
      as (h1 & l & (lv & t & ->) & ->).
    unfold events, kind_of_ext.
    destruct (str_eqb (lower g) (lit "gif")); simpl;
      (destruct (http_get world h1 _) as [[st [data|]]|]; simpl;
       [destruct ((400 <=? st)%Z && (st <? 600)%Z); simpl| |]).
    all: split; [reflexivity|].
    all: repeat (constructor; [try (intro; discriminate)|]); try constructor.
    all: intros _; eauto.
  - destruct (on_message_text CHAT_ID world msg h Em) as (l & -> & lv & t & ->).
    unfold events. simpl. auto.
Qed.

(** ** Broker to chat *)

(** C2.  A message on topic [mt32/status] whose decoded, stripped payload
    is [hello] makes [on_message] send exactly one text message, with
    text [Topic: mt32/status], a newline, [Message: hello]; there is no
    fetch and no media send (the text message is the only chat send). *)
Theorem on_message_hello (CHAT_ID : option str) (world : World)
    (msg : MQTTMessage) (h : list event) :
  topic msg = lit "mt32/status" ->
  strip (payload_decoded msg) = lit "hello" ->
  let evs := events (on_message CHAT_ID world msg h) in
  filter is_chat_send evs
  = [send_message (of_getenv CHAT_ID)
       (lit "Topic: mt32/status" ++ [nl] ++ lit "Message: hello") (lit "Markdown")]
  /\ filter is_fetch evs = []
  /\ filter is_media_send evs = [].
Proof.
  intros Ht Hp evs. subst evs.
  assert (Em : IMAGE_URL_PATTERN_match (strip (payload_decoded msg)) = None).
  { rewrite Hp. vm_compute. reflexivity. }
  destruct (on_message_text CHAT_ID world msg h Em) as (l & -> & lv & t & ->).
  unfold events. rewrite Ht, Hp. simpl. auto.
Qed.

Lemma on_message_hello_witness :
  let msg := {| topic := lit "mt32/status"; payload_decoded := lit " hello" ++ [nl] |} in
  let evs := events (on_message (Some (lit "42")) (constant_world None 0) msg []) in
  filter is_chat_send evs
  = [send_message (VStr (lit "42"))
       (lit "Topic: mt32/status" ++ [nl] ++ lit "Message: hello") (lit "Markdown")]
  /\ filter is_fetch evs = []
  /\ filter is_media_send evs = [].
Proof.
  intros msg.
  apply (@on_message_hello (Some (lit "42")) (constant_world None 0) msg []);
    reflexivity.
Defined.

(** C3.  A message with payload [https://x.example/a.png] on topic
    [telegram/output/cam1] makes [on_message] fetch that URL exactly once;
    when the fetch answers with a status from 200 to 299 and a body, it
    sends exactly one photo, with caption [Topic: telegram/output/cam1],
    and no text message (the photo is the only chat send). *)
Theorem on_message_png (CHAT_ID : option str) (world : World)
    (msg : MQTTMessage) (h : list event) :
  topic msg = lit "telegram/output/cam1" ->
  payload_decoded msg = lit "https://x.example/a.png" ->
  let evs := events (on_message CHAT_ID world msg h) in
  filter is_fetch evs = [requests_get (lit "https://x.example/a.png") 15 true]
  /\ forall st data,
       (forall h', http_get world h' (lit "https://x.example/a.png")
                   = Some {| status_code := st; content := Some data |}) ->
       (200 <= st < 300)%Z ->
       filter is_chat_send evs
       = [send_photo (of_getenv CHAT_ID) (lit "snapshot.png") data
            (lit "Topic: telegram/output/cam1")].
Proof.
  intros Ht Hp evs. subst evs.
  assert (Es : strip (payload_decoded msg) = lit "https://x.example/a.png").
  { rewrite Hp. vm_compute. reflexivity. }
  assert (Em : IMAGE_URL_PATTERN_match (strip (payload_decoded msg))
               = Some [(1, lit "png")]).
  { rewrite Es. vm_compute. reflexivity. }
  destruct (@on_message_media CHAT_ID world msg h _ (lit "png") Em eq_refl)
    as (h1 & l & (lv & t & ->) & ->).
  unfold events. rewrite Es, Ht. split.
  - simpl. destruct (http_get world h1 _) as [[st [data|]]|]; simpl;
      [destruct ((400 <=? st)%Z && (st <? 600)%Z); simpl| |]; reflexivity.
  - intros st data Hw Hst. simpl. rewrite Hw.
    replace ((400 <=? st)%Z && (st <? 600)%Z) with false
      by (symmetry; apply andb_false_iff; left; apply Z.leb_gt; lia).
    reflexivity.
Qed.

Lemma on_message_png_witness :
  let msg := {| topic := lit "telegram/output/cam1";
                payload_decoded := lit "https://x.example/a.png" |} in
  let world := constant_world (Some {| status_code := 200; content := Some [137; 80]%N |}) 0 in
  filter is_chat_send (events (on_message (Some (lit "42")) world msg []))
  = [send_photo (VStr (lit "42")) (lit "snapshot.png") [137; 80]%N
       (lit "Topic: telegram/output/cam1")].
Proof.
  intros msg world.
  apply (proj2 (@on_message_png (Some (lit "42")) world msg [] eq_refl eq_refl)
           200%Z [137; 80]%N).
  - intros h'. reflexivity.
  - lia.
Defined.

(** C4, as amended.  [on_message] always returns: whatever the fetch and
    the chat client do, no exception leaves it.  When the payload is
    matched as a media URL and the fetch fails (the request raises, as on
    a connection error or a timeout, or the status is from 400 to 599, or
    the body cannot be read), nothing is sent to the chat.  The broker
    loop goes on with the next message: its run on a list of messages is
    the run of [on_message] on the first followed by its run on the
    others, and it returns. *)
Theorem on_message_never_raises (CHAT_ID : option str) (world : World)
    (msg : MQTTMessage) (h : list event) :
  result (on_message CHAT_ID world msg h) = Ret tt
  /\ (IMAGE_URL_PATTERN_match (strip (payload_decoded msg)) <> None ->
      (forall h', fetch_fails (http_get world h' (strip (payload_decoded msg))) = true) ->
      filter is_chat_send (events (on_message CHAT_ID world msg h)) = [])
  /\ forall msgs,
       result (broker_loop CHAT_ID world (msg :: msgs) h) = Ret tt
       /\ events (broker_loop CHAT_ID world (msg :: msgs) h)
          = events (on_message CHAT_ID world msg h)
            ++ events (broker_loop CHAT_ID world msgs
                         (h ++ events (on_message CHAT_ID world msg h))).
Proof.
  assert (R : forall msg h, result (on_message CHAT_ID world msg h) = Ret tt).
  { clear. intros msg h.
    destruct (IMAGE_URL_PATTERN_match (strip (payload_decoded msg))) as [m|] eqn:Em.
    - destruct (match_group1 _ Em) as (g & Hg).
      destruct (on_message_media CHAT_ID world msg h Em Hg) as (h1 & l & _ & ->).
      reflexivity.
    - destruct (on_message_text CHAT_ID world msg h Em) as (l & -> & _).
      reflexivity. }
  split; [apply R|]. split.
  - intros Hm Hf.
    destruct (IMAGE_URL_PATTERN_match (strip (payload_decoded msg))) as [m|] eqn:Em;
      [clear Hm | contradiction].
    destruct (match_group1 _ Em) as (g & Hg).
    destruct (on_message_media CHAT_ID world msg h Em Hg)
      as (h1 & l & (lv & t & ->) & ->).
    specialize (Hf h1). unfold events. simpl.
    destruct (http_get world h1 _) as [[st [data|]]|]; simpl in *;
      [rewrite orb_false_r in Hf; rewrite Hf| |]; reflexivity.
  - intros msgs.
    assert (L : forall msgs h, result (broker_loop CHAT_ID world msgs h) = Ret tt).
    { clear - R. induction msgs as [|m0 msgs IH]; intros h; [reflexivity|].
      unfold broker_loop, result in *. simpl. unfold bind at 1.
      specialize (R m0 h). unfold result in R.
      destruct (on_message CHAT_ID world m0 h) as [o e]. simpl in R. subst o.
      specialize (IH (h ++ e)).
      destruct (for_each msgs (on_message CHAT_ID world) (h ++ e)). exact IH. }
    split; [apply L|].
    unfold broker_loop, events. simpl. unfold bind at 1.
    specialize (R msg h). unfold result in R.
    destruct (on_message CHAT_ID world msg h) as [o e]. simpl in R. subst o. simpl.
    destruct (for_each msgs (on_message CHAT_ID world) (h ++ e)). reflexivity.
Qed.

Lemma on_message_never_raises_witness :
  let msg := {| topic := lit "telegram/output/cam1";
                payload_decoded := lit "https://x.example/a.png" |} in
  let world := constant_world (Some {| status_code := 404; content := Some [] |}) 0 in
  filter is_chat_send (events (on_message (Some (lit "42")) world msg [])) = [].
Proof.
  intros msg world.
  apply (proj1 (proj2 (@on_message_never_raises (Some (lit "42")) world msg []))).
  - vm_compute. discriminate.
  - intros h'. reflexivity.
Defined.

(** C4, as stated, fails on a status that is neither a success nor an
    error status: on [304] the photo (here with an empty body) is sent. *)
Lemma on_message_not_modified_counterexample :
  let msg := {| topic := lit "telegram/output/cam1";
                payload_decoded := lit "https://x.example/a.png" |} in
  let world := constant_world (Some {| status_code := 304; content := Some [] |}) 0 in
  ~ (200 <= 304 < 300)%Z
  /\ filter is_chat_send (events (on_message (Some (lit "42")) world msg []))
     = [send_photo (VStr (lit "42")) (lit "snapshot.png") []
          (lit "Topic: telegram/output/cam1")].
Proof.
  split; [lia | vm_compute; reflexivity].
Qed.

(** C10.  When the stripped payload is a media URL, with extension [ext]
    at its longest path, every media send of [on_message] carries the
    file name [snapshot.] followed by [ext] lower-cased, and is an
    animation exactly when that lower-cased extension is [gif]; when the
    fetch answers with a body and no error status, this media send is the
    one chat send.  So a URL that ends in [.GIF] goes out as an animation
    named [snapshot.gif]. *)
Theorem on_message_filename (CHAT_ID : option str) (world : World)
    (msg : MQTTMessage) (h : list event) (scheme path ext q : str) :
  image_url (strip (payload_decoded msg)) scheme path ext q ->
  (forall scheme' path' ext' q',
     image_url (strip (payload_decoded msg)) scheme' path' ext' q' ->
     List.length path' <= List.length path) ->
  let evs := events (on_message CHAT_ID world msg h) in
  let media data :=
    (if str_eqb (lower ext) (lit "gif") then send_animation else send_photo)
      (of_getenv CHAT_ID) (lit "snapshot." ++ lower ext) data
      (lit "Topic: " ++ topic msg) in
  Forall (fun e => is_chat_send e = true -> exists data, e = media data) evs
  /\ (forall st data,
        (forall h', http_get world h' (strip (payload_decoded msg))
                    = Some {| status_code := st; content := Some data |}) ->
        (st < 400 \/ 600 <= st)%Z ->
        filter is_chat_send evs = [media data])
  /\ (ext = lit "GIF" -> forall data, media data
        = send_animation (of_getenv CHAT_ID) (lit "snapshot.gif") data
            (lit "Topic: " ++ topic msg)).
Proof.
  intros U Hmax evs media. subst evs media.
  destruct (match_longest _ U Hmax) as (m & Em & Hg).
  destruct (on_message_media CHAT_ID world msg h Em Hg)
    as (h1 & l & (lv & t & ->) & ->).
  unfold events. split; [|split].
  - simpl. destruct (http_get world h1 _) as [[st [data|]]|]; simpl;
      [destruct ((400 <=? st)%Z && (st <? 600)%Z); simpl| |].
    all: repeat (constructor; [try (intro; discriminate)|]); try constructor.
    intros _. exists data. reflexivity.
  - intros st data Hw Hst. simpl. rewrite Hw.
    replace ((400 <=? st)%Z && (st <? 600)%Z) with false
      by (symmetry; apply andb_false_iff;
          destruct Hst; [left; apply Z.leb_gt | right; apply Z.ltb_ge]; lia).
    destruct (str_eqb (lower ext) (lit "gif")); reflexivity.
  - intros -> data. reflexivity.
Qed.

Lemma on_message_filename_witness :
  let msg := {| topic := lit "cam"; payload_decoded := lit "http://a/b.GIF" |} in
  let world := constant_world (Some {| status_code := 200; content := Some [71; 73]%N |}) 0 in
  filter is_chat_send (events (on_message (Some (lit "42")) world msg []))
  = [send_animation (VStr (lit "42")) (lit "snapshot.gif") [71; 73]%N (lit "Topic: cam")].
Proof.
  intros msg world.
  assert (U : image_url (strip (payload_decoded msg)) (lit "http") (lit "a/b") (lit "GIF") []).
  { split; [reflexivity|]. split; [left; repeat constructor|].
    split; [simpl; intuition discriminate|].
    split; [|left; reflexivity].
    exists (lit "gif"). split; [simpl; auto|]. repeat constructor. }
  assert (Hmax : forall scheme' path' ext' q',
            image_url (strip (payload_decoded msg)) scheme' path' ext' q' ->
            List.length path' <= List.length (lit "a/b")).
  { intros scheme' path' ext' q' U'. apply image_url_length in U'.
    change (List.length (strip (payload_decoded msg))) with 14 in U'.
    simpl. lia. }
  destruct (@on_message_filename (Some (lit "42")) world msg [] _ _ _ _ U Hmax)
    as (_ & H & _).
  apply (H 200%Z [71; 73]%N).
  - intros h'. reflexivity.
  - lia.
Defined.

(** ** Chat to broker *)

(** C5.  A chat message whose chat id, as a string, differs from the
    configured [CHAT_ID] makes [handle_telegram_message] publish nothing
    and send nothing: all it does is log one warning. *)
Theorem handle_unauthorized (CHAT_ID : option str) (MQTT_TOPIC_INPUT : str)
    (world : World) (message : Message) (h : list event) :
  py_str (VInt (chat_id message)) <> py_str (of_getenv CHAT_ID) ->
  let evs := events (handle_telegram_message CHAT_ID MQTT_TOPIC_INPUT world message h) in
  filter is_publish evs = []
  /\ filter is_chat_send evs = []
  /\ evs = [log WARNING (lit "Ignored message from unauthorized chat_id="
                         ++ str_of_int (chat_id message))].
Proof.
  intros Hne evs. subst evs. apply str_eqb_neq in Hne.
  rewrite (handle_rejected CHAT_ID world MQTT_TOPIC_INPUT message h Hne).
  simpl. auto.
Qed.

Lemma handle_unauthorized_witness :
  let message := {| chat_id := 999; text := lit "on" |} in
  let evs := events (handle_telegram_message (Some (lit "12345")) (lit "telegram/input")
                       (constant_world None 0) message []) in
  filter is_publish evs = []
  /\ filter is_chat_send evs = []
  /\ evs = [log WARNING (lit "Ignored message from unauthorized chat_id=999")].
Proof.
  intros message.
  apply (@handle_unauthorized (Some (lit "12345")) (lit "telegram/input")
           (constant_world None 0) message []).
  vm_compute. discriminate.
Defined.

(** C6, as amended.  A chat message from the authorized chat makes
    [handle_telegram_message] call [publish] once, with the text of the
    message as it is, on [MQTT_TOPIC_INPUT].  When the call returns, the
    handler replies once to the message: with a text that names the topic
    when the result code is [MQTT_ERR_SUCCESS], with the failure text
    otherwise.  When the call raises (the broker client does not accept
    the topic), there is no reply and the exception leaves the handler. *)
Theorem handle_authorized (CHAT_ID : option str) (MQTT_TOPIC_INPUT : str)
    (world : World) (message : Message) (h : list event) :
  py_str (VInt (chat_id message)) = py_str (of_getenv CHAT_ID) ->
  let run := handle_telegram_message CHAT_ID MQTT_TOPIC_INPUT world message h in
  let rc := publish_rc world h MQTT_TOPIC_INPUT (text message) in
  filter is_publish (events run) = [publish MQTT_TOPIC_INPUT (text message)]
  /\ (mqtt_ok world h (publish MQTT_TOPIC_INPUT (text message)) = true ->
      filter is_chat_send (events run)
      = [reply_to message
           (if (rc =? MQTT_ERR_SUCCESS)%Z
            then lit "Sent to `" ++ MQTT_TOPIC_INPUT ++ lit "`"
            else lit "ERROR - Publishing to MQTT failed")])
  /\ (mqtt_ok world h (publish MQTT_TOPIC_INPUT (text message)) = false ->
      filter is_chat_send (events run) = [] /\ result run = Raise).
Proof.
  intros He run rc. subst run rc. apply str_eqb_eq in He.
  destruct (handle_accepted CHAT_ID world MQTT_TOPIC_INPUT message h He)
    as (o & l & (lv & t & ->) & ->).
  destruct (mqtt_ok world h (publish MQTT_TOPIC_INPUT (text message))).
  - unfold events. split; [destruct o; reflexivity|].
    split; [intros _; destruct o; reflexivity | discriminate].
  - unfold events, result. simpl. split; [reflexivity|].
    split; [discriminate | auto].
Qed.

Lemma handle_authorized_witness :
  let message := {| chat_id := 12345; text := lit "on" |} in
  (filter is_chat_send
     (events (handle_telegram_message (Some (lit "12345")) (lit "telegram/input")
                (constant_world None 0) message []))
   = [reply_to message (lit "Sent to `telegram/input`")])
  /\ (filter is_chat_send
        (events (handle_telegram_message (Some (lit "12345")) []
                   (strict_broker_world None 0) message []))
      = []
      /\ result (handle_telegram_message (Some (lit "12345")) []
                   (strict_broker_world None 0) message [])
         = Raise).
Proof.
  intros message. split.
  - apply (proj1 (proj2 (@handle_authorized (Some (lit "12345")) (lit "telegram/input")
                           (constant_world None 0) message [] eq_refl))).
    reflexivity.
  - apply (proj2 (proj2 (@handle_authorized (Some (lit "12345")) []
                           (strict_broker_world None 0) message [] eq_refl))).
    reflexivity.
Defined.

(** C6, as stated, fails when the input topic is not one the broker
    client publishes to: with [MQTT_TOPIC_INPUT] set to a topic with a
    wildcard, [publish] raises and the authorized sender gets no reply. *)
Lemma handle_authorized_wildcard_counterexample :
  let message := {| chat_id := 12345; text := lit "on" |} in
  let run := handle_telegram_message (Some (lit "12345")) (lit "telegram/#")
               (strict_broker_world None 0) message [] in
  py_str (VInt (chat_id message)) = py_str (of_getenv (Some (lit "12345")))
  /\ events run = [publish (lit "telegram/#") (lit "on")]
  /\ filter is_chat_send (events run) = []
  /\ result run = Raise.
Proof.
  vm_compute. repeat split; reflexivity.
Qed.

(** C9.  The authorization check compares string forms: a message is
    accepted (its text is published) exactly when [str] of its chat id
    equals [str] of the configured [CHAT_ID].  So an integer id is
    accepted when [CHAT_ID] is its decimal numeral, and rejected when
    [CHAT_ID] is that numeral with anything before it (leading zeros,
    white space) or after it. *)
Theorem authorization_compares_str (MQTT_TOPIC_INPUT : str) (world : World)
    (message : Message) (h : list event) :
  let accepted CHAT_ID :=
    In (publish MQTT_TOPIC_INPUT (text message))
       (events (handle_telegram_message CHAT_ID MQTT_TOPIC_INPUT world message h)) in
  (forall CHAT_ID,
     accepted CHAT_ID <-> py_str (VInt (chat_id message)) = py_str (of_getenv CHAT_ID))
  /\ accepted (Some (str_of_int (chat_id message)))
  /\ forall pad, pad <> [] ->
       ~ accepted (Some (pad ++ str_of_int (chat_id message)))
       /\ ~ accepted (Some (str_of_int (chat_id message) ++ pad)).
Proof.
  intros accepted.
  assert (A : forall CHAT_ID,
            accepted CHAT_ID
            <-> py_str (VInt (chat_id message)) = py_str (of_getenv CHAT_ID)).
  { intros CHAT_ID. subst accepted. simpl.
    destruct (str_eqb (py_str (VInt (chat_id message))) (py_str (of_getenv CHAT_ID)))
      eqn:E.
    - destruct (handle_accepted_shape CHAT_ID world MQTT_TOPIC_INPUT message h E)
        as (o & tail & -> & _).
      apply str_eqb_eq in E. split; [intros _; exact E | intros _].
      left. reflexivity.
    - rewrite (handle_rejected CHAT_ID world MQTT_TOPIC_INPUT message h E).
      apply str_eqb_neq in E. split; [|contradiction]. intros I. exfalso.
      destruct I as [I | []]. discriminate. }
  split; [exact A|]. split; [apply A; reflexivity|].
  intros pad Hpad. split; intros I; apply A in I; simpl in I;
    apply (f_equal (@List.length char)) in I; rewrite length_app in I;
    destruct pad; try contradiction; simpl in I; lia.
Qed.

Lemma authorization_compares_str_witness :
  let message := {| chat_id := 12345; text := lit "on" |} in
  let accepted CHAT_ID :=
    In (publish (lit "telegram/input") (lit "on"))
       (events (handle_telegram_message CHAT_ID (lit "telegram/input")
                  (constant_world None 0) message [])) in
  accepted (Some (lit "12345"))
  /\ ~ accepted (Some (lit "012345"))
  /\ ~ accepted (Some (lit "12345 ")).
Proof.
  intros message accepted.
  destruct (@authorization_compares_str (lit "telegram/input")
              (constant_world None 0) message []) as (_ & Hyes & Hno).
  split; [exact Hyes|]. split.
  - apply (Hno (lit "0")). discriminate.
  - apply (Hno (lit " ")). discriminate.
Defined.

(** ** Subscriptions *)

Section Subscribing.

Variable world : World.

(** The body of the loop of [on_connect]. *)
Let body : str -> M unit := fun topic =>
  client_subscribe world (strip topic) ;;
  logger INFO (lit "Subscribed to topic: " ++ strip topic).

Let records (topics : list str) : list event :=
  flat_map (fun topic =>
    [subscribe (strip topic);
     log INFO (lit "Subscribed to topic: " ++ strip topic)]) topics.

Lemma records_subscribes (topics : list str) :
  filter is_subscribe (records topics) = map subscribe (map strip topics).
Proof.
  induction topics as [|t l IH]; [reflexivity|]. simpl. f_equal. exact IH.
Qed.

(** While the broker client accepts the filters, the loop goes through
    the whole list. *)
Lemma for_each_subscribe (topics : list str) (h : list event) :
  (forall t h', In t topics -> mqtt_ok world h' (subscribe (strip t)) = true) ->
  for_each topics body h = (Ret tt, records topics).
Proof.
  revert h; induction topics as [|t topics IH]; intros h Hok; [reflexivity|].
  simpl. unfold bind at 1. unfold body at 1. run.
  rewrite (Hok t h (or_introl eq_refl)). simpl.
  rewrite IH; [reflexivity|]. intros u h' I. apply Hok. right. exact I.
Qed.

(** The first filter that the broker client does not accept ends the
    loop: the call is made, and nothing follows it. *)
Lemma for_each_subscribe_raise (pre : list str) (t : str) (post : list str)
    (h : list event) :
  (forall u h', In u pre -> mqtt_ok world h' (subscribe (strip u)) = true) ->
  (forall h', mqtt_ok world h' (subscribe (strip t)) = false) ->
  for_each (pre ++ t :: post) body h
  = (Raise, records pre ++ [subscribe (strip t)]).
Proof.
  revert h; induction pre as [|u pre IH]; intros h Hok Hbad.
  - simpl. unfold bind at 1. unfold body at 1. run. rewrite Hbad. reflexivity.
  - simpl. unfold bind at 1. unfold body at 1. run.
    rewrite (Hok u h (or_introl eq_refl)). simpl.
    rewrite IH; [reflexivity | | exact Hbad].
    intros v h' I. apply Hok. right. exact I.
Qed.

(** In every world the subscriptions made are those of a first part of
    the list, in order, and the loop calls nothing else than
    [subscribe]. *)
Lemma for_each_subscribe_prefix (topics : list str) (h : list event) :
  exists n,
    filter is_subscribe (events (for_each topics body h))
    = map subscribe (map strip (firstn n topics))
    /\ Forall (fun e => is_chat_send e = false) (events (for_each topics body h)).
Proof.
  revert h; induction topics as [|t topics IH]; intros h.
  - exists 0. split; [reflexivity | constructor].
  - simpl. unfold bind at 1 2. unfold body at 1 3. run.
    destruct (mqtt_ok world h (subscribe (strip t))); simpl.
    + match goal with |- context [for_each topics body ?h'] =>
        destruct (IH h') as (n & Hs & Hc);
        destruct (for_each topics body h') as [o e] end.
      unfold events in *. simpl in *. exists (S n). simpl.
      split; [f_equal; exact Hs | repeat (constructor; [reflexivity|]); exact Hc].
    + exists 1. simpl. split; [reflexivity | repeat constructor].
Qed.

(** [on_connect] is the first record and then the loop. *)
Lemma on_connect_run (MQTT_BROKER : str) (MQTT_PORT : Z)
    (MQTT_TOPICS_OUTPUT : list str) (rc : ReasonCode) (h : list event) :
  on_connect MQTT_BROKER MQTT_PORT MQTT_TOPICS_OUTPUT world rc h
  = if (rc_value rc =? 0)%Z then
      let first := log INFO (lit "Connected to MQTT broker: " ++ MQTT_BROKER
                             ++ lit ":" ++ str_of_int MQTT_PORT) in
      let (o, e) := for_each MQTT_TOPICS_OUTPUT body (h ++ [first]) in
      (o, first :: e)
    else (Ret tt, [log ERROR (lit "MQTT connection failed (rc=" ++ rc_name rc
                              ++ lit ")")]).
Proof.
  unfold on_connect. destruct (rc_value rc =? 0)%Z; reflexivity.
Qed.

End Subscribing.

(** C7, as amended.  On a connect with result code 0, [on_connect]
    subscribes to the configured output topics (each stripped), once for
    each entry of the list and in the order of the list, whatever
    happened before, as long as the broker client accepts the filters:
    when every call returns, all of them are subscribed to and the
    handler returns; the first call that raises is the last one, the
    entries after it are not subscribed to and the exception leaves the
    handler.  On any other result code it subscribes to nothing. *)
Theorem on_connect_subscribes (MQTT_BROKER : str) (MQTT_PORT : Z)
    (MQTT_TOPICS_OUTPUT : list str) (world : World) (rc : ReasonCode)
    (h : list event) :
  let run := on_connect MQTT_BROKER MQTT_PORT MQTT_TOPICS_OUTPUT world rc h in
  (rc_value rc = 0%Z ->
   (forall t h', In t MQTT_TOPICS_OUTPUT ->
      mqtt_ok world h' (subscribe (strip t)) = true) ->
   filter is_subscribe (events run) = map subscribe (map strip MQTT_TOPICS_OUTPUT)
   /\ result run = Ret tt)
  /\ (rc_value rc = 0%Z ->
      forall pre t post,
        MQTT_TOPICS_OUTPUT = pre ++ t :: post ->
        (forall u h', In u pre -> mqtt_ok world h' (subscribe (strip u)) = true) ->
        (forall h', mqtt_ok world h' (subscribe (strip t)) = false) ->
        filter is_subscribe (events run) = map subscribe (map strip (pre ++ [t]))
        /\ result run = Raise)
  /\ (rc_value rc <> 0%Z -> filter is_subscribe (events run) = []).
Proof.
  intros run. subst run. rewrite on_connect_run. split; [|split].
  - intros Hrc Hok. rewrite Hrc. simpl.
    rewrite (for_each_subscribe world MQTT_TOPICS_OUTPUT _ Hok).
    unfold events, result. simpl. split; [apply records_subscribes | reflexivity].
  - intros Hrc pre t post -> Hok Hbad. rewrite Hrc. simpl.
    rewrite (for_each_subscribe_raise world pre t post _ Hok Hbad).
    unfold events, result. simpl. split; [|reflexivity].
    rewrite filter_app, records_subscribes, !map_app. reflexivity.
  - intros Hrc. apply Z.eqb_neq in Hrc. rewrite Hrc. reflexivity.
Qed.

Lemma on_connect_subscribes_witness :
  let topics := [lit "telegram/output/#"; lit " mt32/#"] in
  let ok := {| rc_value := 0; rc_name := lit "Success" |} in
  (filter is_subscribe
     (events (on_connect (lit "localhost") 1883 topics (constant_world None 0) ok
                [subscribe (lit "mt32/#")]))
   = [subscribe (lit "telegram/output/#"); subscribe (lit "mt32/#")]
   /\ result (on_connect (lit "localhost") 1883 topics (constant_world None 0) ok
                [subscribe (lit "mt32/#")])
      = Ret tt)
  /\ (filter is_subscribe
        (events (on_connect (lit "localhost") 1883 [lit "mt32/#"; lit " "; lit "cam/#"]
                   (strict_broker_world None 0) ok []))
      = [subscribe (lit "mt32/#"); subscribe []]
      /\ result (on_connect (lit "localhost") 1883 [lit "mt32/#"; lit " "; lit "cam/#"]
                   (strict_broker_world None 0) ok [])
         = Raise)
  /\ filter is_subscribe
       (events (on_connect (lit "localhost") 1883 topics (constant_world None 0)
                  {| rc_value := 5; rc_name := lit "Not authorized" |} []))
     = [].
Proof.
  intros topics ok. split; [|split].
  - apply (proj1 (@on_connect_subscribes (lit "localhost") 1883 topics
                    (constant_world None 0) ok [subscribe (lit "mt32/#")]));
      reflexivity.
  - apply (proj1 (proj2 (@on_connect_subscribes (lit "localhost") 1883
                           [lit "mt32/#"; lit " "; lit "cam/#"]
                           (strict_broker_world None 0) ok []))
             eq_refl [lit "mt32/#"] (lit " ") [lit "cam/#"] eq_refl).
    + intros u h' [<- | []]. reflexivity.
    + intros h'. reflexivity.
  - apply (proj2 (proj2 (@on_connect_subscribes (lit "localhost") 1883 topics
                           (constant_world None 0)
                           {| rc_value := 5; rc_name := lit "Not authorized" |} []))).
    discriminate.
Defined.

(** C7, as stated, fails on a list with an entry that the broker client
    does not accept as a filter: on an empty entry [subscribe] raises,
    and the entry after it is never subscribed to. *)
Lemma on_connect_empty_filter_counterexample :
  let topics := [lit "mt32/#"; []; lit "cam/#"] in
  let run := on_connect (lit "localhost") 1883 topics (strict_broker_world None 0)
               {| rc_value := 0; rc_name := lit "Success" |} [] in
  filter is_subscribe (events run) = [subscribe (lit "mt32/#"); subscribe []]
  /\ ~ In (subscribe (lit "cam/#")) (events run)
  /\ filter is_subscribe (events run) <> map subscribe (map strip topics)
  /\ result run = Raise.
Proof.
  vm_compute. repeat split; try reflexivity; try discriminate.
  intuition discriminate.
Qed.

(** ** The destination of the chat sends *)

(** C8.  Every call of the chat client made by a handler goes to the
    configured chat: the sends of [on_message] name [CHAT_ID] itself, a
    reply of [handle_telegram_message] goes to the chat of a message that
    passed the check against [CHAT_ID], and [on_connect] sends nothing. *)
Theorem chat_sends_target_CHAT_ID (CHAT_ID : option str)
    (MQTT_BROKER : str) (MQTT_PORT : Z) (MQTT_TOPICS_OUTPUT : list str)
    (MQTT_TOPIC_INPUT : str) (world : World) (h : list event) :
  (forall msg,
     Forall (addressed_to CHAT_ID) (events (on_message CHAT_ID world msg h)))
  /\ (forall message,
        Forall (addressed_to CHAT_ID)
          (events (handle_telegram_message CHAT_ID MQTT_TOPIC_INPUT world message h)))
  /\ (forall rc,
        Forall (fun e => is_chat_send e = false)
          (events (on_connect MQTT_BROKER MQTT_PORT MQTT_TOPICS_OUTPUT world rc h))).
Proof.
  split; [|split].
  - intros msg.
    destruct (IMAGE_URL_PATTERN_match (strip (payload_decoded msg))) as [m|] eqn:Em.
    + destruct (match_group1 _ Em) as (g & Hg).
      destruct (on_message_media CHAT_ID world msg h Em Hg)
        as (h1 & l & (lv & t & ->) & ->).
      unfold events. simpl.
      destruct (http_get world h1 _) as [[st [data|]]|]; simpl;
        [destruct ((400 <=? st)%Z && (st <? 600)%Z); simpl| |].
      all: repeat (constructor; [exact I|]); try constructor.
      * destruct (str_eqb (lower g) (lit "gif")); reflexivity.
      * repeat constructor.
    + destruct (on_message_text CHAT_ID world msg h Em) as (l & -> & lv & t & ->).
      unfold events. simpl. repeat constructor.
  - intros message.
    destruct (str_eqb (py_str (VInt (chat_id message))) (py_str (of_getenv CHAT_ID)))
      eqn:E.
    + destruct (handle_accepted_shape CHAT_ID world MQTT_TOPIC_INPUT message h E)
        as (o & tail & -> & Ht).
      apply str_eqb_eq in E. unfold events. simpl.
      constructor; [exact I|].
      destruct Ht as [-> | (reply & rest & -> & [-> | (lv & t & ->)])];
        repeat constructor; exact E.
    + rewrite (handle_rejected CHAT_ID world MQTT_TOPIC_INPUT message h E).
      repeat constructor.
  - intros rc. rewrite on_connect_run.
    destruct (rc_value rc =? 0)%Z; [|repeat constructor]. cbv zeta.
    match goal with |- context [for_each MQTT_TOPICS_OUTPUT ?b ?h'] =>
      destruct (for_each_subscribe_prefix world MQTT_TOPICS_OUTPUT h') as (n & _ & Hc);
      destruct (for_each MQTT_TOPICS_OUTPUT b h') as [o e] end.
    unfold events in *. cbn [snd] in *. constructor; [reflexivity | exact Hc].
Qed.

(** ** The pattern on examples *)

Example match_rightmost_extension : option_map (fun m => group m 1) (IMAGE_URL_PATTERN_match (lit "http://a/b.gif?x.png")) = Some (Some (lit "png")).
Proof. vm_compute. reflexivity. Qed.
Example match_empty_path : IMAGE_URL_PATTERN_match (lit "http://.png") = Some [(1, lit "png")].
Proof. vm_compute. reflexivity. Qed.
Example match_query_string : IMAGE_URL_PATTERN_match (lit "HTTPS://a/b.JPEG?x") = Some [(1, lit "JPEG"); (2, lit "?x")].
Proof. vm_compute. reflexivity. Qed.
Example match_not_across_lines : IMAGE_URL_PATTERN_match (lit "http://a/b.jpg" ++ [nl] ++ lit "c.png") = None.
Proof. vm_compute. reflexivity. Qed.
Example match_before_final_newline : IMAGE_URL_PATTERN_match (lit "http://a/b.jpg" ++ [nl]) = Some [(1, lit "jpg")].
Proof. vm_compute. reflexivity. Qed.
Example str_of_int_decimal : str_of_int (-120) = lit "-120" /\ str_of_int 0 = lit "0".
Proof. vm_compute. split; reflexivity. Qed.

(** Letters beyond ASCII that [re.IGNORECASE] accepts: the long s in the
    scheme, and a dotted capital I in the extension, which lower-cases to
    two code points, so that the file is sent as a photo. *)
Example match_long_s :
  IMAGE_URL_PATTERN_match (lit "http" ++ [0x17f%N] ++ lit "://a/b.png")
  = Some [(1, lit "png")].
Proof. vm_compute. reflexivity. Qed.

Example classify_dotted_capital_i :
  classify (lit "http://a/b.g" ++ [0x130%N] ++ lit "f")
  = MediaPayload (lit "http://a/b.g" ++ [0x130%N] ++ lit "f") image
  /\ lower (lit "g" ++ [0x130%N] ++ lit "f") = lit "gi" ++ [0x307%N] ++ lit "f".
Proof. vm_compute. split; reflexivity. Qed.

(** * Further properties of the module *)

(** ** Stripping *)

Lemma lstrip_blank (a x : str) : blank a -> lstrip (a ++ x) = lstrip x.
Proof.
  induction 1 as [|c a Hc _ IH]; [reflexivity|]. simpl. rewrite Hc. exact IH.
Qed.

Lemma lstrip_split (s : str) : exists a, s = a ++ lstrip s /\ blank a.
Proof.
  induction s as [|c s (a & E & B)]; [exists []; split; [reflexivity | constructor]|].
  simpl. destruct (isspace c) eqn:Hc.
  - exists (c :: a). split; [simpl; f_equal; exact E | constructor; assumption].
  - exists []. split; [reflexivity | constructor].
Qed.

Lemma lstrip_all_blank (s : str) : blank s -> lstrip s = [].
Proof.
  intros B. rewrite <- (app_nil_r s). rewrite lstrip_blank; [reflexivity | exact B].
Qed.

Lemma blank_rev (s : str) : blank s -> blank (rev s).
Proof. apply Forall_rev. Qed.

(** [strip] takes away white space and nothing else. *)
Lemma strip_split (s : str) :
  exists a b, s = a ++ strip s ++ b /\ blank a /\ blank b.
Proof.
  destruct (lstrip_split s) as (a & Ea & Ba).
  destruct (lstrip_split (rev (lstrip s))) as (b & Eb & Bb).
  exists a, (rev b). split; [|split; [exact Ba | apply blank_rev; exact Bb]].
  unfold strip, rstrip. rewrite <- rev_app_distr, <- Eb, rev_involutive. exact Ea.
Qed.

Lemma lstrip_keeps_last (y : str) (c : char) :
  isspace c = false -> exists w, lstrip (y ++ [c]) = w ++ [c].
Proof.
  intros Hc. induction y as [|d y IH]; simpl.
  - rewrite Hc. exists []. reflexivity.
  - destruct (isspace d); [exact IH|]. exists (d :: y). reflexivity.
Qed.

Lemma strip_first (s x : str) (c : char) : strip s = c :: x -> isspace c = false.
Proof.
  unfold strip, rstrip. intros H.
  destruct (lstrip_head s) as [E | (c0 & r & E & Hc0)]; rewrite E in H;
    [discriminate|].
  simpl in H. destruct (@lstrip_keeps_last (rev r) c0 Hc0) as (w & K).
  rewrite K, rev_app_distr in H. simpl in H.
  injection H as <- _. exact Hc0.
Qed.

Lemma strip_blank (s : str) : blank s -> strip s = [].
Proof.
  intros B. unfold strip, rstrip. rewrite (lstrip_all_blank B). reflexivity.
Qed.

(** White space around a string does not change what [strip] gives. *)
Lemma strip_pad (a s b : str) : blank a -> blank b -> strip (a ++ s ++ b) = strip s.
Proof.
  intros Ba Bb. unfold strip. rewrite (lstrip_blank _ Ba).
  destruct (lstrip_split s) as (a' & Es & Ba').
  destruct (lstrip_head s) as [E | (c & r & E & Hc)].
  - rewrite E in *. rewrite app_nil_r in Es. subst a'.
    rewrite lstrip_all_blank; [reflexivity|]. apply Forall_app. auto.
  - rewrite E in *. rewrite Es at 1. rewrite <- app_assoc, (lstrip_blank _ Ba').
    simpl. rewrite Hc. unfold rstrip.
    change (c :: r ++ b) with ((c :: r) ++ b).
    rewrite rev_app_distr, (lstrip_blank _ (blank_rev Bb)). reflexivity.
Qed.

Lemma strip_incl (s : str) (c : char) : In c (strip s) -> In c s.
Proof.
  destruct (strip_split s) as (a & b & E & _). intros I. rewrite E.
  apply in_or_app. right. apply in_or_app. left. exact I.
Qed.

(** ** Classification: what decides it and what does not *)

(** X6.  White space around the payload plays no part in the classification. *)
Theorem classify_pad (a s b : str) :
  blank a -> blank b -> classify (a ++ s ++ b) = classify s.
Proof.
  intros Ba Bb. unfold classify. rewrite (strip_pad s Ba Bb). reflexivity.
Qed.

Lemma classify_pad_witness :
  classify ([nl] ++ lit "http://a/b.gif" ++ lit "  ") = classify (lit "http://a/b.gif").
Proof.
  apply (@classify_pad [nl] (lit "http://a/b.gif") (lit "  "));
    repeat constructor.
Defined.

Lemma literal_nl (l : char) : literal_match true l nl = true -> l = nl.
Proof.
  unfold literal_match. change (unicode_tolower nl) with nl.
  change (nl =? 383)%N with false. change (nl =? 305)%N with false.
  rewrite !andb_false_r, !orb_false_r. intros H.
  apply N.eqb_eq in H. symmetry. exact H.
Qed.

Lemma ieq_no_nl (w x : str) : ieq w x -> ~ In nl w -> ~ In nl x.
Proof.
  induction 1 as [|l c w x H F IH]; [intros _ []|]. intros Hw [E | I].
  - subst c. apply literal_nl in H. apply Hw. left. exact H.
  - apply IH; [|exact I]. intro I'. apply Hw. right. exact I'.
Qed.

(** A media URL is on one line. *)
Lemma image_url_no_nl (t scheme path ext q : str) :
  image_url t scheme path ext q -> ~ In nl t.
Proof.
  intros (-> & Hs & Hp & (e & He & Fe) & Hq) I.
  repeat (apply in_app_or in I as [I | I]).
  - destruct Hs as [F | F]; revert I; apply (ieq_no_nl F); red_lit; simpl;
      intuition discriminate.
  - revert I. red_lit. simpl. intuition discriminate.
  - contradiction.
  - revert I. red_lit. simpl. intuition discriminate.
  - revert I. apply (ieq_no_nl Fe). unfold extensions in He. simpl in He.
    destruct He as [<- | [<- | [<- | [<- | [<- | []]]]]]; red_lit; simpl;
      intuition discriminate.
  - destruct Hq as [-> | (q' & -> & Hq')]; [contradiction|].
    apply in_app_or in I as [I | I]; [|contradiction].
    revert I. red_lit. simpl. intuition discriminate.
Qed.

(** X7.  A payload that keeps a newline inside once stripped is forwarded as
    text, whatever else it holds. *)
Theorem classify_multiline (s : str) :
  In nl (strip s) -> classify s = TextPayload (strip s).
Proof.
  intros I. unfold classify. simpl.
  destruct (IMAGE_URL_PATTERN_match (strip s)) as [m|] eqn:Em; [|reflexivity].
  exfalso.
  destruct (match_greedy (@strip_no_trailing_nl s) Em)
    as (scheme & path & ext & q & U & _).
  exact (image_url_no_nl U I).
Qed.

Lemma classify_multiline_witness :
  classify (lit "http://a/b.png" ++ [nl] ++ lit "http://a/c.png")
  = TextPayload (lit "http://a/b.png" ++ [nl] ++ lit "http://a/c.png").
Proof.
  apply (classify_multiline (lit "http://a/b.png" ++ [nl] ++ lit "http://a/c.png")).
  vm_compute. auto 20.
Defined.

(** Without a query string the split is the longest one: the extension
    holds no dot. *)
Lemma no_query_longest (t scheme path ext : str) :
  image_url t scheme path ext [] ->
  forall scheme' path' ext' q', image_url t scheme' path' ext' q' ->
    List.length path' <= List.length path.
Proof.
  intros U scheme' path' ext' q' U'.
  pose proof (extension_chars U) as Hc.
  destruct U as (E & Hs & _). destruct U' as (E' & Hs' & _).
  rewrite E in E'. rewrite app_nil_r in E'.
  assert (scheme = scheme') as <- by (eapply scheme_unique; eauto).
  apply app_inv_head in E'. apply app_inv_head in E'.
  apply app_eq_app in E' as (l & [[-> E2] | [-> E2]]).
  - rewrite length_app. lia.
  - destruct l as [|d l]; [rewrite app_nil_r; lia|]. exfalso.
    simpl in E2. injection E2 as <- E2. rewrite E2 in Hc.
    apply Forall_app in Hc as [_ Hc]. inversion Hc as [|? ? Hd _]; subst. lia.
Qed.

(** X8.  A URL on [http] or [https] that ends in one of the five extensions
    (no query string) is media, of the kind of that extension. *)
Theorem classify_url_ending_in_extension (s scheme path ext : str) :
  image_url (strip s) scheme path ext [] ->
  classify s = MediaPayload (strip s) (kind_of_ext (lower ext)).
Proof.
  intros U. destruct (match_longest s U (no_query_longest U)) as (m & Em & Hg).
  unfold classify. simpl. rewrite Em, Hg. reflexivity.
Qed.

Lemma classify_url_ending_in_extension_witness :
  classify (lit "HTTPS://cam.local/snap/last.WebP ")
  = MediaPayload (lit "HTTPS://cam.local/snap/last.WebP") image.
Proof.
  apply (@classify_url_ending_in_extension (lit "HTTPS://cam.local/snap/last.WebP ")
           (lit "HTTPS") (lit "cam.local/snap/last") (lit "WebP")).
  split; [reflexivity|]. split; [right; repeat constructor|].
  split; [simpl; intuition discriminate|].
  split; [|left; reflexivity].
  exists (lit "webp"). split; [simpl; auto 6|]. repeat constructor.
Defined.

(** X9.  Only a payload that begins, once stripped, with [http://] or
    [https://] (letters in either case) and has at least eleven
    characters is media; the URL fetched is the stripped payload. *)
Theorem classify_media_shape (s url : str) (kind : media_kind) :
  classify s = MediaPayload url kind ->
  url = strip s
  /\ 11 <= List.length url
  /\ exists scheme rest,
       url = scheme ++ lit "://" ++ rest
       /\ (ieq (lit "http") scheme \/ ieq (lit "https") scheme).
Proof.
  unfold classify. simpl. intros H.
  destruct (IMAGE_URL_PATTERN_match (strip s)) as [m|] eqn:Em; [|discriminate].
  assert (url = strip s) as ->
    by (destruct (group m 1); injection H as <- _; reflexivity).
  destruct (match_greedy (@strip_no_trailing_nl s) Em)
    as (scheme & path & ext & q & U & _).
  split; [reflexivity|]. split.
  - apply image_url_length in U. lia.
  - destruct U as (E & Hs & _). exists scheme, (path ++ lit "." ++ ext ++ q). auto.
Qed.

Lemma classify_media_shape_witness :
  lit "http://a/b.gif" = strip (lit " http://a/b.gif")
  /\ 11 <= List.length (lit "http://a/b.gif")
  /\ exists scheme rest,
       lit "http://a/b.gif" = scheme ++ lit "://" ++ rest
       /\ (ieq (lit "http") scheme \/ ieq (lit "https") scheme).
Proof.
  apply (@classify_media_shape (lit " http://a/b.gif") (lit "http://a/b.gif") animation).
  vm_compute. reflexivity.
Defined.

(** ** Classification does not look at the case of ASCII letters *)

Ltac decide_cmp :=
  repeat match goal with
  | |- context [(?a <=? ?b)%N] =>
      first [ replace (a <=? b)%N with true by (symmetry; apply N.leb_le; lia)
            | replace (a <=? b)%N with false by (symmetry; apply N.leb_gt; lia) ]
  | |- context [(?a =? ?b)%N] =>
      first [ replace (a =? b)%N with false by (symmetry; apply N.eqb_neq; lia)
            | replace (a =? b)%N with true by (symmetry; apply N.eqb_eq; lia) ]
  end.

Lemma same_letter_sym (c d : char) : same_letter c d -> same_letter d c.
Proof. unfold same_letter. intuition. Qed.

Lemma capital_isspace (c : char) :
  (65 <= c <= 90)%N -> isspace c = false /\ isspace (c + 32)%N = false.
Proof. intros H. unfold isspace. split; decide_cmp; reflexivity. Qed.

Lemma capital_literal (l c : char) :
  (65 <= c <= 90)%N -> literal_match true l c = literal_match true l (c + 32)%N.
Proof. intros H. unfold literal_match, unicode_tolower. decide_cmp. reflexivity. Qed.

Lemma capital_dot (c : char) :
  (65 <= c <= 90)%N -> dot_match c = true /\ dot_match (c + 32)%N = true.
Proof. intros H. unfold dot_match, nl. split; decide_cmp; reflexivity. Qed.

Lemma capital_lower (c : char) :
  (65 <= c <= 90)%N -> lower_char c = lower_char (c + 32)%N.
Proof. intros H. unfold lower_char. decide_cmp. reflexivity. Qed.

Lemma same_letter_isspace (c d : char) : same_letter c d -> isspace c = isspace d.
Proof.
  intros [-> | [[H ->] | [H ->]]]; [reflexivity | |];
    destruct (capital_isspace H) as [-> ->]; reflexivity.
Qed.

Lemma same_letter_literal (l c d : char) :
  same_letter c d -> literal_match true l c = literal_match true l d.
Proof.
  intros [-> | [[H ->] | [H ->]]]; [reflexivity | |];
    rewrite (capital_literal l H); reflexivity.
Qed.

Lemma same_letter_dot (c d : char) : same_letter c d -> dot_match c = dot_match d.
Proof.
  intros [-> | [[H ->] | [H ->]]]; [reflexivity | |];
    destruct (capital_dot H) as [-> ->]; reflexivity.
Qed.

Lemma same_letter_lower (a b : str) : Forall2 same_letter a b -> lower a = lower b.
Proof.
  induction 1 as [|c d a b H F IH]; [reflexivity|].
  unfold lower in *. simpl. rewrite IH. f_equal.
  destruct H as [-> | [[H ->] | [H ->]]]; [reflexivity | |];
    rewrite (capital_lower H); reflexivity.
Qed.

Lemma Forall2_rev_same (A B : Type) (R : A -> B -> Prop) (a : list A) (b : list B) :
  Forall2 R a b -> Forall2 R (rev a) (rev b).
Proof.
  induction 1 as [|x y a b H F IH]; [constructor|].
  simpl. apply Forall2_app; [exact IH | repeat constructor; exact H].
Qed.

Lemma Forall2_firstn_same (A B : Type) (R : A -> B -> Prop) (n : nat)
    (a : list A) (b : list B) :
  Forall2 R a b -> Forall2 R (firstn n a) (firstn n b).
Proof.
  intros F. revert n. induction F as [|x y a b H F IH]; intros [|n]; simpl;
    constructor; auto.
Qed.

Lemma same_letter_lstrip (a b : str) :
  Forall2 same_letter a b -> Forall2 same_letter (lstrip a) (lstrip b).
Proof.
  induction 1 as [|c d a b H F IH]; [constructor|].
  simpl. rewrite <- (same_letter_isspace H).
  destruct (isspace c); [exact IH | constructor; assumption].
Qed.

Lemma same_letter_strip (a b : str) :
  Forall2 same_letter a b -> Forall2 same_letter (strip a) (strip b).
Proof.
  intros F. unfold strip, rstrip.
  apply Forall2_rev_same, same_letter_lstrip, Forall2_rev_same, same_letter_lstrip.
  exact F.
Qed.

Lemma eat_same (w s1 s2 : str) :
  Forall2 same_letter s1 s2 ->
  opt_same (Forall2 same_letter) (eat true w s1) (eat true w s2).
Proof.
  revert s1 s2. induction w as [|l w IH]; intros s1 s2 F; cbn [eat]; [exact F|].
  destruct F as [|c d s1 s2 H F]; cbn [eat opt_same]; [exact I|].
  rewrite <- (same_letter_literal l H).
  destruct (literal_match true l c); [apply IH; exact F | exact I].
Qed.

Lemma dotstar_same (s1 s2 : str) (k1 k2 : nat -> str -> option captures) :
  Forall2 same_letter s1 s2 ->
  (forall p a b, Forall2 same_letter a b -> opt_same caps_same (k1 p a) (k2 p b)) ->
  forall pos, opt_same caps_same (dotstar pos s1 k1) (dotstar pos s2 k2).
Proof.
  intros F Hk. induction F as [|c d s1 s2 H F IH]; intros pos; cbn [dotstar].
  - apply Hk. constructor.
  - assert (K : opt_same caps_same (k1 pos (c :: s1)) (k2 pos (d :: s2)))
      by (apply Hk; constructor; assumption).
    rewrite <- (same_letter_dot H). destruct (dot_match c); [|exact K].
    specialize (IH (S pos)).
    destruct (dotstar (S pos) s1 k1), (dotstar (S pos) s2 k2); simpl in IH;
      try contradiction; [exact IH | exact K].
Qed.

(** The matcher gives results that agree on subjects that agree. *)
Lemma exec_same (r : regex) :
  forall pos s1 s2 k1 k2,
  Forall2 same_letter s1 s2 ->
  (forall p a b, Forall2 same_letter a b -> opt_same caps_same (k1 p a) (k2 p b)) ->
  opt_same caps_same (exec true r pos s1 k1) (exec true r pos s2 k2).
Proof.
  induction r as [w| |r1 IH1 r2 IH2|r1 IH1 r2 IH2|r1 IH1|n r1 IH1| |];
    intros pos s1 s2 k1 k2 F Hk; simpl.
  - pose proof (eat_same w F) as E.
    destruct (eat true w s1), (eat true w s2); simpl in E; try contradiction;
      [apply Hk; exact E | exact I].
  - apply dotstar_same; assumption.
  - apply IH1; [exact F|]. intros p a b Fab. apply IH2; assumption.
  - pose proof (IH1 pos s1 s2 k1 k2 F Hk) as E.
    destruct (exec true r1 pos s1 k1), (exec true r1 pos s2 k2); simpl in E;
      try contradiction; [exact E | apply IH2; assumption].
  - pose proof (IH1 pos s1 s2 k1 k2 F Hk) as E.
    destruct (exec true r1 pos s1 k1), (exec true r1 pos s2 k2); simpl in E;
      try contradiction; [exact E | apply Hk; exact F].
  - apply IH1; [exact F|]. intros p a b Fab. specialize (Hk p a b Fab).
    destruct (k1 p a), (k2 p b); simpl in *; try contradiction; [|exact I].
    constructor; [|exact Hk]. simpl. split; [reflexivity|].
    apply Forall2_firstn_same. exact F.
  - destruct (Nat.eqb pos 0); [apply Hk; exact F | exact I].
  - destruct F as [|c d s1 s2 H F]; [apply Hk; constructor|].
    destruct F as [|c' d' s1 s2 H' F]; [|exact I].
    pose proof (same_letter_dot H) as E. unfold dot_match in E.
    apply (f_equal negb) in E. rewrite !negb_involutive in E. rewrite <- E.
    destruct (c =? nl)%N; [apply Hk; constructor; [exact H | constructor] | exact I].
Qed.

Lemma group_same (m1 m2 : captures) (n : nat) :
  caps_same m1 m2 -> opt_same (Forall2 same_letter) (group m1 n) (group m2 n).
Proof.
  unfold group. induction 1 as [|[n1 t1] [n2 t2] m1 m2 [E F] _ IH]; simpl;
    [exact I|].
  simpl in E, F. subst n2. destruct (Nat.eqb n1 n); [exact F | exact IH].
Qed.

(** X10.  The classification does not depend on the case of the ASCII letters
    of the payload: two payloads that differ in it only are both text,
    or both media of the same kind. *)
Theorem classify_case (s1 s2 : str) :
  Forall2 same_letter s1 s2 -> classified_same (classify s1) (classify s2).
Proof.
  intros F. apply same_letter_strip in F.
  assert (E : opt_same caps_same (IMAGE_URL_PATTERN_match (strip s1))
                (IMAGE_URL_PATTERN_match (strip s2))).
  { unfold IMAGE_URL_PATTERN_match, re_match. apply exec_same; [exact F|].
    intros p a b _. constructor. }
  unfold classify. simpl.
  destruct (IMAGE_URL_PATTERN_match (strip s1)) as [m1|],
           (IMAGE_URL_PATTERN_match (strip s2)) as [m2|]; simpl in E;
    try contradiction; [|exact F].
  pose proof (group_same 1 E) as G.
  destruct (group m1 1) as [g1|], (group m2 1) as [g2|]; simpl in G;
    try contradiction; simpl; (split; [exact F|]); [|reflexivity].
  rewrite (same_letter_lower G). reflexivity.
Qed.

Lemma classify_case_witness :
  classified_same (classify (lit "http://cam/x.gif")) (classify (lit "HTTP://CAM/X.GIF")).
Proof.
  apply (@classify_case (lit "http://cam/x.gif") (lit "HTTP://CAM/X.GIF")).
  red_lit.
  repeat (apply Forall2_cons;
          [first [left; reflexivity | right; right; split; [lia | reflexivity]]|]).
  apply Forall2_nil.
Defined.

(** ** [on_message]: bounds, closing record, empty payload *)

(** X2.  One message costs at most one fetch and at most one call of the chat
    client, and [on_message] never publishes, subscribes or replies. *)
Theorem on_message_at_most_once (CHAT_ID : option str) (world : World)
    (msg : MQTTMessage) (h : list event) :
  let evs := events (on_message CHAT_ID world msg h) in
  List.length (filter is_fetch evs) <= 1
  /\ List.length (filter is_chat_send evs) <= 1
  /\ Forall (fun e => is_publish e = false /\ is_subscribe e = false
                      /\ is_reply e = false) evs.
Proof.
  simpl.
  destruct (IMAGE_URL_PATTERN_match (strip (payload_decoded msg))) as [m|] eqn:Em.
  - destruct (match_group1 _ Em) as (g & Hg).
    destruct (on_message_media CHAT_ID world msg h Em Hg)
      as (h1 & l & (lv & t & ->) & ->).
    unfold events. simpl.
    destruct (http_get world h1 _) as [[st [data|]]|]; simpl;
      [destruct ((400 <=? st)%Z && (st <? 600)%Z); simpl;
       [|destruct (str_eqb (lower g) (lit "gif")); simpl] | |].
    all: repeat split; try lia; repeat constructor.
  - destruct (on_message_text CHAT_ID world msg h Em) as (l & -> & lv & t & ->).
    unfold events. simpl. repeat split; try lia; repeat constructor.
Qed.

(** X3.  Every run of [on_message] ends with a call and one log record
    that tells how the call went.  Either the call is the one call of
    the chat client of the run, and the record is [INFO] when the call
    returned and [ERROR], with the text of line 117, when it raised; or
    the call is the fetch, which failed (the request raised, the status
    is an error status, or the body could not be read), the record is
    that [ERROR] one and the chat client is not called at all.  Nothing
    is tried a second time. *)
Theorem on_message_closing_record (CHAT_ID : option str) (world : World)
    (msg : MQTTMessage) (h : list event) :
  exists pre e lv t,
    events (on_message CHAT_ID world msg h) = pre ++ [e; log lv t]
    /\ filter is_chat_send pre = []
    /\ List.length (filter is_fetch (pre ++ [e])) <= 1
    /\ ((is_chat_send e = true
         /\ (telegram_ok world (h ++ pre) e = true -> lv = INFO)
         /\ (telegram_ok world (h ++ pre) e = false ->
             lv = ERROR /\ t = lit "Error while processing MQTT message"))
        \/ (e = requests_get (strip (payload_decoded msg)) 15 true
            /\ fetch_fails (http_get world (h ++ pre) (strip (payload_decoded msg)))
               = true
            /\ lv = ERROR /\ t = lit "Error while processing MQTT message")).
Proof.
  unfold on_message.
  destruct (IMAGE_URL_PATTERN_match (strip (payload_decoded msg))) as [m|] eqn:Em.
  - destruct (match_group1 _ Em) as (g & Hg). rewrite Hg. run.
    cbn [fst snd app]. rewrite ?app_nil_r, <- ?app_assoc. cbn [app].
    set (l1 := log INFO (lit "MQTT message received | topic=" ++ _)).
    set (l2 := log INFO (lit "Downloading image (" ++ _)).
    set (rq := requests_get (strip (payload_decoded msg)) 15 true).
    destruct (http_get world (h ++ [l1; l2]) (strip (payload_decoded msg)))
      as [[st [data|]]|] eqn:Eh; cbn [fst snd app status_code content].
    + destruct ((400 <=? st)%Z && (st <? 600)%Z) eqn:Est; cbn [fst snd app].
      * exists [l1; l2], rq, ERROR, (lit "Error while processing MQTT message").
        split; [reflexivity|]. split; [reflexivity|]. split; [simpl; lia|].
        right. rewrite Eh. unfold fetch_fails. cbn [status_code]. rewrite Est. auto.
      * rewrite ?app_nil_r, <- ?app_assoc. cbn [app].
        destruct (str_eqb (lower g) (lit "gif")); cbn [fst snd app];
          match goal with |- context [telegram_ok world ?a ?b] =>
            set (sd := b); destruct (telegram_ok world a sd) eqn:Et end;
          cbn [fst snd app];
          (eexists [l1; l2; rq], sd, _, _;
           split; [reflexivity|]; split; [reflexivity|]; split; [simpl; lia|];
           left; split; [reflexivity|]; rewrite Et; split; intros Hx;
           first [discriminate Hx | reflexivity | split; reflexivity]).
    + exists [l1; l2], rq, ERROR, (lit "Error while processing MQTT message").
      destruct ((400 <=? st)%Z && (st <? 600)%Z) eqn:Est; cbn [fst snd app];
        (split; [reflexivity|]; split; [reflexivity|]; split; [simpl; lia|];
         right; rewrite Eh; unfold fetch_fails; cbn [status_code content];
         rewrite Est; auto).
    + exists [l1; l2], rq, ERROR, (lit "Error while processing MQTT message").
      split; [reflexivity|]. split; [reflexivity|]. split; [simpl; lia|].
      right. rewrite Eh. auto.
  - run. cbn [fst snd app]. rewrite ?app_nil_r, <- ?app_assoc. cbn [app].
    set (l1 := log INFO (lit "MQTT message received | topic=" ++ _)).
    match goal with |- context [telegram_ok world ?a ?b] =>
      set (sd := b); destruct (telegram_ok world a sd) eqn:Et end;
      cbn [fst snd app];
      (eexists [l1], sd, _, _;
       split; [reflexivity|]; split; [reflexivity|]; split; [simpl; lia|];
       left; split; [reflexivity|]; rewrite Et; split; intros Hx;
       first [discriminate Hx | reflexivity | split; reflexivity]).
Qed.

Lemma on_message_closing_record_witness :
  let msg := {| topic := lit "mt32/door"; payload_decoded := lit "open" |} in
  exists pre e lv t,
    events (on_message (Some (lit "42")) (chat_down_world None 0) msg [])
    = pre ++ [e; log lv t]
    /\ is_chat_send e = true
    /\ lv = ERROR /\ t = lit "Error while processing MQTT message".
Proof.
  intros msg.
  destruct (@on_message_closing_record (Some (lit "42")) (chat_down_world None 0) msg [])
    as (pre & e & lv & t & E & _ & _ & [(Hc & _ & Hbad) | (Hrq & _)]).
  - exists pre, e, lv, t. split; [exact E|]. split; [exact Hc|].
    apply Hbad. reflexivity.
  - exfalso. subst e. revert E. vm_compute. intros E.
    destruct pre as [|a [|b [|c pre]]]; try discriminate E.
    destruct pre; discriminate E.
Defined.

(** X4.  A payload of white space only, or an empty one, still goes to the
    chat: as a text message with an empty body. *)
Theorem on_message_blank_payload (CHAT_ID : option str) (world : World)
    (msg : MQTTMessage) (h : list event) :
  blank (payload_decoded msg) ->
  let evs := events (on_message CHAT_ID world msg h) in
  filter is_chat_send evs
  = [send_message (of_getenv CHAT_ID)
       (lit "Topic: " ++ topic msg ++ [nl] ++ lit "Message: ") (lit "Markdown")]
  /\ filter is_fetch evs = [].
Proof.
  intros B. simpl. pose proof (strip_blank B) as Es.
  assert (Em : IMAGE_URL_PATTERN_match (strip (payload_decoded msg)) = None)
    by (rewrite Es; reflexivity).
  destruct (on_message_text CHAT_ID world msg h Em) as (l & -> & lv & t & ->).
  unfold events. rewrite Es. simpl. auto.
Qed.

Lemma on_message_blank_payload_witness :
  let msg := {| topic := lit "mt32/door"; payload_decoded := lit "  " ++ [nl] |} in
  let evs := events (on_message (Some (lit "42")) (constant_world None 0) msg []) in
  filter is_chat_send evs
  = [send_message (VStr (lit "42"))
       (lit "Topic: mt32/door" ++ [nl] ++ lit "Message: ") (lit "Markdown")]
  /\ filter is_fetch evs = [].
Proof.
  intros msg.
  apply (@on_message_blank_payload (Some (lit "42")) (constant_world None 0) msg []).
  repeat constructor.
Defined.

(** X5.  The body of a forwarded text is the payload less the white space
    around it: nothing else is taken away, and the body neither begins
    nor ends with white space. *)
Theorem on_message_text_body (CHAT_ID : option str) (world : World)
    (msg : MQTTMessage) (h : list event) (body : str) :
  classify (payload_decoded msg) = TextPayload body ->
  filter is_chat_send (events (on_message CHAT_ID world msg h))
  = [send_message (of_getenv CHAT_ID)
       (lit "Topic: " ++ topic msg ++ [nl] ++ lit "Message: " ++ body)
       (lit "Markdown")]
  /\ (exists a b, payload_decoded msg = a ++ body ++ b /\ blank a /\ blank b)
  /\ (forall c x, body = c :: x -> isspace c = false)
  /\ (forall x c, body = x ++ [c] -> isspace c = false).
Proof.
  unfold classify. simpl. intros H.
  destruct (IMAGE_URL_PATTERN_match (strip (payload_decoded msg))) as [m|] eqn:Em;
    [destruct (group m 1); discriminate|].
  injection H as <-.
  destruct (on_message_text CHAT_ID world msg h Em) as (l & -> & lv & t & ->).
  unfold events. simpl. split; [reflexivity|]. split; [apply strip_split|].
  split; [intros c x E; exact (@strip_first _ _ _ E)
         | intros x c E; exact (@strip_last _ _ _ E)].
Qed.

Lemma on_message_text_body_witness :
  let msg := {| topic := lit "mt32/door"; payload_decoded := lit " door  open " |} in
  filter is_chat_send (events (on_message (Some (lit "42")) (constant_world None 0) msg []))
  = [send_message (VStr (lit "42"))
       (lit "Topic: mt32/door" ++ [nl] ++ lit "Message: door  open") (lit "Markdown")].
Proof.
  intros msg.
  apply (@on_message_text_body (Some (lit "42")) (constant_world None 0) msg []
           (lit "door  open")).
  vm_compute. reflexivity.
Defined.

(** ** The broker loop: at most once *)

Lemma on_message_returns (CHAT_ID : option str) (world : World)
    (msg : MQTTMessage) (h : list event) :
  exists evs, on_message CHAT_ID world msg h = (Ret tt, evs)
    /\ List.length (filter is_fetch evs) <= 1
    /\ List.length (filter is_chat_send evs) <= 1.
Proof.
  destruct (IMAGE_URL_PATTERN_match (strip (payload_decoded msg))) as [m|] eqn:Em.
  - destruct (match_group1 _ Em) as (g & Hg).
    destruct (on_message_media CHAT_ID world msg h Em Hg)
      as (h1 & l & (lv & t & ->) & ->).
    eexists. split; [reflexivity|]. simpl.
    destruct (http_get world h1 _) as [[st [data|]]|]; simpl;
      [destruct ((400 <=? st)%Z && (st <? 600)%Z); simpl;
       [|destruct (str_eqb (lower g) (lit "gif")); simpl] | |].
    all: split; lia.
  - destruct (on_message_text CHAT_ID world msg h Em) as (l & -> & lv & t & ->).
    eexists. split; [reflexivity|]. simpl. split; lia.
Qed.

Lemma broker_loop_cons (CHAT_ID : option str) (world : World)
    (m : MQTTMessage) (msgs : list MQTTMessage) (h : list event) :
  broker_loop CHAT_ID world (m :: msgs) h
  = match on_message CHAT_ID world m h with
    | (Ret _, e1) =>
        let (o, e2) := broker_loop CHAT_ID world msgs (h ++ e1) in (o, e1 ++ e2)
    | (Raise, e1) => (Raise, e1)
    end.
Proof. reflexivity. Qed.

(** X11.  Forwarding is at most once: over any run of the broker loop there
    are no more fetches and no more calls of the chat client than
    messages received, and the loop outlives every message. *)
Theorem broker_loop_at_most_once (CHAT_ID : option str) (world : World)
    (msgs : list MQTTMessage) (h : list event) :
  result (broker_loop CHAT_ID world msgs h) = Ret tt
  /\ List.length (filter is_fetch (events (broker_loop CHAT_ID world msgs h)))
     <= List.length msgs
  /\ List.length (filter is_chat_send (events (broker_loop CHAT_ID world msgs h)))
     <= List.length msgs.
Proof.
  revert h. induction msgs as [|m msgs IH]; intros h.
  - simpl. auto.
  - rewrite broker_loop_cons.
    destruct (on_message_returns CHAT_ID world m h) as (evs & -> & Hf & Hc).
    specialize (IH (h ++ evs)).
    destruct (broker_loop CHAT_ID world msgs (h ++ evs)) as [o e].
    unfold result, events in *. simpl in *. destruct IH as (-> & IHf & IHc).
    rewrite !filter_app, !length_app. repeat split; lia.
Qed.

(** ** [handle_telegram_message]: who is let in, and what a failure does *)

Lemma lit_inj (a b : string) : lit a = lit b -> a = b.
Proof.
  unfold lit. intros H.
  rewrite <- (string_of_list_ascii_of_string a), <- (string_of_list_ascii_of_string b).
  f_equal. revert H. generalize (list_ascii_of_string a) (list_ascii_of_string b).
  induction l as [|x l IH]; intros [|y l'] H; simpl in H; try discriminate;
    [reflexivity|].
  injection H as Hx Hl. f_equal; [|apply IH; exact Hl].
  rewrite <- (ascii_N_embedding x), <- (ascii_N_embedding y), Hx. reflexivity.
Qed.

Lemma to_int_proper (z : Z) :
  Z.to_int z <> Decimal.Pos Decimal.Nil /\ Z.to_int z <> Decimal.Neg Decimal.Nil.
Proof.
  destruct z as [|p|p]; simpl; split; try discriminate;
    intros [= H]; exact (Unsigned.to_uint_nonnil p H).
Qed.

(** [str] tells integers apart. *)
Lemma str_of_int_inj (z1 z2 : Z) : str_of_int z1 = str_of_int z2 -> z1 = z2.
Proof.
  unfold str_of_int. intros H. apply lit_inj in H.
  apply DecimalZ.to_int_inj.
  destruct (to_int_proper z1) as [P1 N1]. destruct (to_int_proper z2) as [P2 N2].
  pose proof (NilZero.isi (Z.to_int z1) P1 N1) as E1.
  pose proof (NilZero.isi (Z.to_int z2) P2 N2) as E2.
  rewrite H in E1. congruence.
Qed.

Lemma str_of_int_not_None (z : Z) : str_of_int z <> lit "None".
Proof.
  unfold str_of_int. intros H. apply lit_inj in H.
  destruct (to_int_proper z) as [P N].
  pose proof (NilZero.isi (Z.to_int z) P N) as E. rewrite H in E. discriminate.
Qed.

(** X12.  When [TELEGRAM_CHAT_ID] is not set, nobody is let in: every chat
    message is dropped with the warning. *)
Theorem handle_without_CHAT_ID (MQTT_TOPIC_INPUT : str) (world : World)
    (message : Message) (h : list event) :
  handle_telegram_message None MQTT_TOPIC_INPUT world message h
  = (Ret tt, [log WARNING (lit "Ignored message from unauthorized chat_id="
                           ++ str_of_int (chat_id message))]).
Proof.
  apply handle_rejected. apply str_eqb_neq. simpl. apply str_of_int_not_None.
Qed.

(** X13.  One chat at most is let in: two messages that are both published
    come from the same chat id. *)
Theorem handle_single_chat (CHAT_ID : option str) (MQTT_TOPIC_INPUT : str)
    (world : World) (m1 m2 : Message) (h1 h2 : list event) :
  In (publish MQTT_TOPIC_INPUT (text m1))
     (events (handle_telegram_message CHAT_ID MQTT_TOPIC_INPUT world m1 h1)) ->
  In (publish MQTT_TOPIC_INPUT (text m2))
     (events (handle_telegram_message CHAT_ID MQTT_TOPIC_INPUT world m2 h2)) ->
  chat_id m1 = chat_id m2.
Proof.
  assert (A : forall m h,
            In (publish MQTT_TOPIC_INPUT (text m))
               (events (handle_telegram_message CHAT_ID MQTT_TOPIC_INPUT world m h)) ->
            str_of_int (chat_id m) = py_str (of_getenv CHAT_ID)).
  { intros m h I.
    destruct (str_eqb (py_str (VInt (chat_id m))) (py_str (of_getenv CHAT_ID))) eqn:E.
    - apply str_eqb_eq in E. exact E.
    - rewrite (handle_rejected CHAT_ID world MQTT_TOPIC_INPUT m h E) in I.
      destruct I as [I | []]. discriminate. }
  intros I1 I2. apply str_of_int_inj. rewrite (A _ _ I1), (A _ _ I2). reflexivity.
Qed.

Lemma handle_single_chat_witness :
  chat_id {| chat_id := 12345; text := lit "on" |}
  = chat_id {| chat_id := 12345; text := lit "off" |}.
Proof.
  apply (@handle_single_chat (Some (lit "12345")) (lit "telegram/input")
           (constant_world None 0) {| chat_id := 12345; text := lit "on" |}
           {| chat_id := 12345; text := lit "off" |} [] []);
    vm_compute; auto.
Defined.

(** X14.  A reply that fails is not caught: when the publish of an
    authorized message has returned and the reply raises, the exception
    leaves the handler, after the publish has taken place, and nothing
    is logged. *)
Theorem handle_reply_failure (CHAT_ID : option str) (MQTT_TOPIC_INPUT : str)
    (world : World) (message : Message) (h : list event) :
  py_str (VInt (chat_id message)) = py_str (of_getenv CHAT_ID) ->
  mqtt_ok world h (publish MQTT_TOPIC_INPUT (text message)) = true ->
  (forall e, telegram_ok world (h ++ [publish MQTT_TOPIC_INPUT (text message)]) e
             = false) ->
  exists reply,
    handle_telegram_message CHAT_ID MQTT_TOPIC_INPUT world message h
    = (Raise, [publish MQTT_TOPIC_INPUT (text message); reply_to message reply]).
Proof.
  intros He Hpub Hdown. apply str_eqb_eq in He.
  unfold handle_telegram_message. rewrite He. simpl. run. rewrite Hpub. simpl.
  destruct (publish_rc world h MQTT_TOPIC_INPUT (text message) =? MQTT_ERR_SUCCESS)%Z;
    simpl; rewrite Hdown; simpl; eauto.
Qed.

Lemma handle_reply_failure_witness :
  exists reply,
    handle_telegram_message (Some (lit "12345")) (lit "telegram/input")
      (chat_down_world None 0) {| chat_id := 12345; text := lit "on" |} []
    = (Raise, [publish (lit "telegram/input") (lit "on");
               reply_to {| chat_id := 12345; text := lit "on" |} reply]).
Proof.
  apply (@handle_reply_failure (Some (lit "12345")) (lit "telegram/input")
           (chat_down_world None 0) {| chat_id := 12345; text := lit "on" |} []).
  - reflexivity.
  - reflexivity.
  - intros e. reflexivity.
Defined.

(** X15.  The chat handler touches the broker and the chat only through one
    publish and one reply at most: it never fetches, never subscribes and
    never sends a message of its own. *)
Theorem handle_only_publish_and_reply (CHAT_ID : option str) (MQTT_TOPIC_INPUT : str)
    (world : World) (message : Message) (h : list event) :
  let evs := events (handle_telegram_message CHAT_ID MQTT_TOPIC_INPUT world message h) in
  List.length (filter is_publish evs) <= 1
  /\ List.length (filter is_reply evs) <= 1
  /\ List.length (filter is_reply evs) <= List.length (filter is_publish evs)
  /\ Forall (fun e => is_fetch e = false /\ is_subscribe e = false
                      /\ is_text_send e = false /\ is_media_send e = false) evs.
Proof.
  simpl.
  destruct (str_eqb (py_str (VInt (chat_id message))) (py_str (of_getenv CHAT_ID)))
    eqn:E.
  - destruct (handle_accepted_shape CHAT_ID world MQTT_TOPIC_INPUT message h E)
      as (o & tail & -> & Ht).
    unfold events.
    destruct Ht as [-> | (reply & rest & -> & [-> | (lv & t & ->)])]; simpl;
      repeat split; try lia; repeat constructor.
  - rewrite (handle_rejected CHAT_ID world MQTT_TOPIC_INPUT message h E).
    unfold events. simpl. repeat split; try lia; repeat constructor.
Qed.

(** ** The configured topics *)

Lemma split_cons (sep : char) (s : str) :
  exists piece pieces, split sep s = piece :: pieces.
Proof.
  destruct s as [|c s]; simpl; [eauto|].
  destruct (c =? sep)%N; [eauto|]. destruct (split sep s); eauto.
Qed.

Lemma split_pieces (sep : char) (s : str) :
  join sep (split sep s) = s
  /\ Forall (fun piece => ~ In sep piece) (split sep s)
  /\ List.length (split sep s) = S (count_occ N.eq_dec s sep).
Proof.
  induction s as [|c s (IHj & IHf & IHl)]; simpl.
  - repeat split; [repeat constructor; auto].
  - destruct (split_cons sep s) as (piece & pieces & E). rewrite E in *.
    destruct (N.eqb_spec c sep) as [-> | Hne].
    + destruct (N.eq_dec sep sep) as [_ | C]; [|contradiction].
      split; [simpl in *; rewrite IHj; reflexivity|].
      split; [constructor; [intros [] | exact IHf] | simpl in *; lia].
    + destruct (N.eq_dec c sep) as [C | _]; [contradiction|].
      split; [|split; [|exact IHl]].
      * simpl in *. destruct pieces; simpl in *; rewrite <- IHj; reflexivity.
      * inversion IHf as [|? ? Hp Hr]; subst. constructor; [|exact Hr].
        intros [C | I]; [apply Hne; exact C | exact (Hp I)].
Qed.

(** X16.  Splitting at the commas loses nothing and leaves no comma: the
    pieces joined with commas are the string again, no piece holds a
    comma, and there is one piece more than there are commas (one empty
    piece for the empty string). *)
Theorem split_join (sep : char) (s : str) :
  join sep (split sep s) = s
  /\ Forall (fun piece => ~ In sep piece) (split sep s)
  /\ List.length (split sep s) = S (count_occ N.eq_dec s sep).
Proof.
  destruct (split_pieces sep s) as (Hj & Hf & Hl). split; [exact Hj|].
  split; [exact Hf | exact Hl].
Qed.

Lemma Forall_firstn_part (A : Type) (P : A -> Prop) (n : nat) (l : list A) :
  Forall P l -> Forall P (firstn n l).
Proof.
  intros F. revert n. induction F as [|x l Hx F IH]; intros [|n]; simpl;
    constructor; auto.
Qed.

(** X17.  From the environment variable to the subscriptions: on a
    successful connect the calls of [subscribe] go through the pieces
    between commas, in order from the first, each piece stripped; when
    the broker client accepts them all there is one subscription for
    each piece, one more than there are commas, and the handler returns;
    no topic subscribed to holds a comma, or begins or ends with white
    space. *)
Theorem on_connect_from_env (env : option str) (MQTT_BROKER : str) (MQTT_PORT : Z)
    (world : World) (rc : ReasonCode) (h : list event) :
  rc_value rc = 0%Z ->
  let value := getenv env (lit "telegram/output/#,mt32/#") in
  let run := on_connect MQTT_BROKER MQTT_PORT (MQTT_TOPICS_OUTPUT_of env) world rc h in
  let subs := filter is_subscribe (events run) in
  (exists n, subs = map subscribe (map strip (firstn n (split comma value))))
  /\ ((forall t h', In t (split comma value) ->
         mqtt_ok world h' (subscribe (strip t)) = true) ->
      subs = map subscribe (map strip (split comma value))
      /\ List.length subs = S (count_occ N.eq_dec value comma)
      /\ result run = Ret tt)
  /\ Forall (fun e => forall t, e = subscribe t ->
               ~ In comma t
               /\ (forall c x, t = c :: x -> isspace c = false)
               /\ (forall x c, t = x ++ [c] -> isspace c = false)) subs.
Proof.
  intros Hrc value run subs.
  destruct (split_pieces comma value) as (_ & Hno & Hlen).
  assert (P : exists n, subs = map subscribe (map strip (firstn n (split comma value)))).
  { subst subs run. rewrite on_connect_run, Hrc. change (0 =? 0)%Z with true. cbv iota.
    unfold MQTT_TOPICS_OUTPUT_of. fold value. cbv zeta.
    match goal with |- context [for_each (split comma value) ?b ?h'] =>
      destruct (for_each_subscribe_prefix world (split comma value) h') as (n & Hs & _);
      destruct (for_each (split comma value) b h') as [o e] end.
    unfold events in *. cbn [snd] in *. exists n. exact Hs. }
  split; [exact P|]. split.
  - intros Hok. subst subs run. rewrite on_connect_run, Hrc. change (0 =? 0)%Z with true. cbv iota.
    unfold MQTT_TOPICS_OUTPUT_of. fold value. cbv zeta.
    rewrite (for_each_subscribe world (split comma value) _ Hok).
    unfold events, result. cbn [fst snd].
    assert (E : forall l, filter is_subscribe
                  (flat_map (fun topic =>
                     [subscribe (strip topic);
                      log INFO (lit "Subscribed to topic: " ++ strip topic)]) l)
                = map subscribe (map strip l)).
    { induction l as [|t l IH]; [reflexivity|]. simpl. f_equal. exact IH. }
    cbn [filter is_subscribe]. rewrite E.
    split; [reflexivity|]. split; [rewrite !length_map; exact Hlen | reflexivity].
  - assert (Q : forall l, Forall (fun piece => ~ In comma piece) l ->
              Forall (fun e => forall t, e = subscribe t ->
                        ~ In comma t
                        /\ (forall c x, t = c :: x -> isspace c = false)
                        /\ (forall x c, t = x ++ [c] -> isspace c = false))
                (map subscribe (map strip l))).
    { induction 1 as [|piece pieces Hp _ IH]; simpl; constructor; [|exact IH].
      intros t [= <-]. split; [intro I; apply Hp; exact (strip_incl _ _ I)|].
      split; [intros c x E; exact (@strip_first _ _ _ E)
             | intros x c E; exact (@strip_last _ _ _ E)]. }
    destruct P as (n & E). rewrite E. apply Q. apply Forall_firstn_part. exact Hno.
Qed.

Lemma on_connect_from_env_witness :
  let run := on_connect (lit "localhost") 1883
               (MQTT_TOPICS_OUTPUT_of (Some (lit "cam/# , door/+")))
               (strict_broker_world None 0)
               {| rc_value := 0; rc_name := lit "Success" |} [] in
  filter is_subscribe (events run)
  = [subscribe (lit "cam/#"); subscribe (lit "door/+")]
  /\ List.length (filter is_subscribe (events run)) = 2
  /\ result run = Ret tt.
Proof.
  apply (proj1 (proj2 (@on_connect_from_env (Some (lit "cam/# , door/+"))
                         (lit "localhost") 1883 (strict_broker_world None 0)
                         {| rc_value := 0; rc_name := lit "Success" |} [] eq_refl))).
  intros t h' [<- | [<- | []]]; reflexivity.
Defined.

(** ** [get_logger] *)

Lemma set_logger_same (name : str) (l : Logger) (reg : Registry) :
  set_logger name l reg name = Some l.
Proof. unfold set_logger. rewrite str_eqb_refl. reflexivity. Qed.

Lemma set_logger_other (name n : str) (l : Logger) (reg : Registry) :
  n <> name -> set_logger name l reg n = reg n.
Proof.
  intros H. unfold set_logger. apply str_eqb_neq in H. rewrite H. reflexivity.
Qed.

(** X18.  No duplicate handlers: once [get_logger] has returned a logger, this
    logger has a handler, and asking for it again returns it as it is
    and changes nothing; a logger that had no handler has exactly one,
    on [stdout], and no longer propagates. *)
Theorem get_logger_idempotent (LOG_LEVEL name : str) (reg reg1 : Registry)
    (lg : Logger) :
  get_logger LOG_LEVEL name reg = (Ret lg, reg1) ->
  get_logger LOG_LEVEL name reg1 = (Ret lg, reg1)
  /\ reg1 name = Some lg
  /\ handlers lg <> []
  /\ ((forall l, reg name = Some l -> handlers l = []) ->
      exists hd, handlers lg = [hd] /\ stream hd = stdout
        /\ propagate lg = false /\ level_of_name LOG_LEVEL = Some (logger_level lg)).
Proof.
  unfold get_logger, getLogger. intros H.
  destruct (reg name) as [l|] eqn:El.
  - destruct (handlers l) as [|hd hs] eqn:Eh.
    + destruct (level_of_name LOG_LEVEL) as [lv|]; [|discriminate].
      injection H as <- <-. rewrite set_logger_same. simpl.
      repeat split; try discriminate. intros _. eexists. repeat split.
    + injection H as <- <-. rewrite El, Eh.
      repeat split; try discriminate.
      intros Hno. rewrite (Hno l eq_refl) in Eh. discriminate.
  - simpl in H. destruct (level_of_name LOG_LEVEL) as [lv|]; [|discriminate].
    injection H as <- <-. rewrite set_logger_same. simpl.
    repeat split; try discriminate. intros _. eexists. repeat split.
Qed.

Lemma get_logger_idempotent_witness :
  let reg0 : Registry := fun _ => None in
  let lg := {| handlers :=
                 [{| stream := stdout;
                     fmt := lit "%(asctime)s | %(levelname)s | %(name)s | %(message)s";
                     datefmt := lit "%Y-%m-%d %H:%M:%S" |}];
               logger_level := 20; propagate := false |} in
  let reg1 := set_logger (lit "telegram-mqtt-bridge") lg
                (set_logger (lit "telegram-mqtt-bridge")
                   {| handlers := []; logger_level := 0; propagate := true |} reg0) in
  get_logger (lit "INFO") (lit "telegram-mqtt-bridge") reg1 = (Ret lg, reg1).
Proof.
  intros reg0 lg reg1.
  apply (proj1 (@get_logger_idempotent (lit "INFO") (lit "telegram-mqtt-bridge")
                  reg0 reg1 lg eq_refl)).
Defined.

(** X19.  A log level that [logging] does not know makes [get_logger] raise on
    a logger without handler, and leaves this logger without handler;
    a logger that has a handler is returned as it is, whatever the level;
    and in every case the loggers of other names are not touched. *)
Theorem get_logger_unknown_level (LOG_LEVEL name : str) (reg : Registry) :
  (level_of_name LOG_LEVEL = None ->
   (forall l, reg name = Some l -> handlers l = []) ->
   exists reg1 l,
     get_logger LOG_LEVEL name reg = (Raise, reg1)
     /\ reg1 name = Some l /\ handlers l = [])
  /\ (forall l, reg name = Some l -> handlers l <> [] ->
      get_logger LOG_LEVEL name reg = (Ret l, reg))
  /\ (forall n, n <> name -> snd (get_logger LOG_LEVEL name reg) n = reg n).
Proof.
  unfold get_logger, getLogger. split; [|split].
  - intros Hlv Hno. destruct (reg name) as [l|] eqn:El.
    + rewrite (Hno l eq_refl), Hlv. exists reg, l. auto.
    + simpl. rewrite Hlv. eexists. eexists. split; [reflexivity|].
      rewrite set_logger_same. auto.
  - intros l El Hh. rewrite El. destruct (handlers l); [contradiction | reflexivity].
  - intros n Hn. destruct (reg name) as [l|] eqn:El.
    + destruct (handlers l); [|reflexivity].
      destruct (level_of_name LOG_LEVEL); [|reflexivity].
      simpl. apply set_logger_other. exact Hn.
    + simpl. destruct (level_of_name LOG_LEVEL); simpl;
        rewrite ?set_logger_other by exact Hn; reflexivity.
Qed.

Lemma get_logger_unknown_level_witness :
  exists reg1 l,
    get_logger (lit "VERBOSE") (lit "telegram-mqtt-bridge") (fun _ => None)
    = (Raise, reg1)
    /\ reg1 (lit "telegram-mqtt-bridge") = Some l /\ handlers l = [].
Proof.
  apply (proj1 (@get_logger_unknown_level (lit "VERBOSE") (lit "telegram-mqtt-bridge")
                  (fun _ => None))).
  - reflexivity.
  - intros l H. discriminate H.
Defined.
